(** * lab3.cpp: depositors, deposit strategies and the bank registry

    A shallow embedding of [src/lab3.cpp].  A C++ [double] is a primitive
    binary64 [float]; its arithmetic and comparisons are the IEEE 754 ones
    ([PrimFloat.add], [PrimFloat.ltb], ...), so NaN, the infinities and the
    signed zeros behave as they do in the program.  A [throw] is a value of
    [result]; code that mutates an object and may throw runs in the monad
    [M], whose state survives a [throw] as the object does in C++. *)

From Stdlib Require Import ZArith Lia List Bool Ascii String Floats.
From Stdlib Require Import DecimalString.
Import ListNotations.

Local Open Scope string_scope.
Local Open Scope list_scope.
Local Open Scope float_scope.

(** ** Exceptions and results *)

(** The two exception classes of the program. *)
Inductive exn : Type :=
| InvalidInputException (message : string)
| NegativeDepositException.

(** [what()] of each exception. *)
Definition what (e : exn) : string :=
  match e with
  | InvalidInputException message => message
  | NegativeDepositException => "Deposit amount cannot be negative"
  end.

(** The outcome of a call: a returned value or a thrown exception. *)
Inductive result (A : Type) : Type :=
| Ok (a : A)
| Throw (e : exn).
Arguments Ok {A} a.
Arguments Throw {A} e.

(** A computation on an object of type [S] that may throw.  The object is
    returned in both cases: what was written before a [throw] stays. *)
Definition M (S A : Type) : Type := S -> result A * S.

Definition ret {S A} (a : A) : M S A := fun s => (Ok a, s).

Definition bind {S A B} (m : M S A) (k : A -> M S B) : M S B :=
  fun s =>
    match m s with
    | (Ok a, s') => k a s'
    | (Throw e, s') => (Throw e, s')
    end.

(** A call of a function that touches no state. *)
Definition call {S A} (r : result A) : M S A := fun s => (r, s).

Definition gets {S A} (f : S -> A) : M S A := fun s => (Ok (f s), s).

Definition modify {S} (f : S -> S) : M S unit := fun s => (Ok tt, f s).

Declare Scope M_scope.
Delimit Scope M_scope with M.
Notation "x <- m ;; k" := (bind m (fun x => k))
  (at level 61, m at next level, right associativity) : M_scope.
Notation "m ;; k" := (bind m (fun _ => k))
  (at level 61, right associativity) : M_scope.

(** ** Deposit strategies *)

(** The two concrete classes behind [IDeposit]; virtual dispatch is the
    [match] of [calculateDeposit]. *)
Inductive IDeposit : Type :=
| FixedDeposit
| NormalDeposit.

Definition FixedDeposit_message : string :=
  "The maximum deposit amount for the fixed account is 1,000,000. Please deposit less.".

Definition FixedDeposit_calculateDeposit (amount : float) : result float :=
  if 1000000 <? amount
  then Throw (InvalidInputException FixedDeposit_message)
  else Ok (amount + 100).

Definition NormalDeposit_calculateDeposit (amount : float) : result float :=
  Ok amount.

Definition calculateDeposit (strategy : IDeposit) (amount : float) : result float :=
  match strategy with
  | FixedDeposit => FixedDeposit_calculateDeposit amount
  | NormalDeposit => NormalDeposit_calculateDeposit amount
  end.

(** ** Validation *)

Definition validateDepositAmount (amount : float) : result unit :=
  if amount <? 0 then Throw NegativeDepositException else Ok tt.

(** [std::isalpha] in the "C" locale, the only locale the program runs in
    (it never calls [setlocale]): the 52 unaccented Latin letters.  A [char]
    outside 0..127 is no letter there (where [char] is signed the C
    standard leaves such a call open; the library's table answers false). *)
Definition isalpha (c : ascii) : bool :=
  let n := N_of_ascii c in
  (((65 <=? n) && (n <=? 90)) || ((97 <=? n) && (n <=? 122)))%N.

(** The alphabetic letters, written out. *)
Definition letters : list ascii :=
  list_ascii_of_string "ABCDEFGHIJKLMNOPQRSTUVWXYZabcdefghijklmnopqrstuvwxyz".

(** The range-for of [isValidName] with its early [return false]. *)
Fixpoint isValidName (name : string) : bool :=
  match name with
  | EmptyString => true
  | String c rest => if negb (isalpha c) then false else isValidName rest
  end.

(** ** Identifiers *)

(** [generateRandomID], as a function of the number [n] that
    [dist(gen)] draws (an [int] of [100000..999999]): ["PZ"] followed by
    [n] in decimal, as [operator<<] writes an [int]. *)
Definition generateRandomID (n : Z) : string :=
  ("PZ" ++ NilZero.string_of_int (Z.to_int n))%string.

(** ** Depositor *)

Record Depositor : Type := mkDepositor {
  name : string;
  amount : float;
  depositStrategy : IDeposit;
  depositorID : string
}.

(** The constructor [Depositor(id, name, amount, strategy)]. *)
Definition Depositor_new (id name : string) (amount : float) (strategy : IDeposit)
  : Depositor :=
  {| name := name; amount := amount; depositStrategy := strategy; depositorID := id |}.

Definition getDepositAmount (d : Depositor) : result float :=
  calculateDeposit (depositStrategy d) (amount d).

Definition getName (d : Depositor) : string := name d.

Definition getID (d : Depositor) : string := depositorID d.

(** [this->amount += x]. *)
Definition add_amount (x : float) (d : Depositor) : Depositor :=
  {| name := name d; amount := amount d + x;
     depositStrategy := depositStrategy d; depositorID := depositorID d |}.

Local Open Scope M_scope.

Definition deposit (amount : float) : M Depositor unit :=
  call (validateDepositAmount amount) ;;
  strategy <- gets depositStrategy ;;
  credited <- call (calculateDeposit strategy amount) ;;
  modify (add_amount credited).

(** ** Bank *)

(** What the program writes: each constructor is one line on [std::cout]
    or [std::cerr]; numbers and strings are kept as values. *)
Inductive output : Type :=
| cout_added (depositorID : string)
| cout_deposit (amount : float) (depositorID : string)
| cerr_error (message : string)
| cout_none
| cout_list
| cout_line (depositorID name : string) (amount : float)
| cout_line_cut (depositorID name : string).

(** A [Bank] object together with the console the methods write to. *)
Record Bank : Type := mkBank {
  depositors : list Depositor;
  console : list output
}.

Definition Bank_new : Bank := {| depositors := []; console := [] |}.

(** [addDepositor]; [n] is the number drawn by [generateRandomID]. *)
Definition addDepositor (n : Z) (name : string) (strategy : IDeposit) : M Bank unit :=
  fun b =>
    let depositorID := generateRandomID n in
    (Ok tt,
     {| depositors := depositors b ++ [Depositor_new depositorID name 0 strategy];
        console := console b ++ [cout_added depositorID] |}).

(** The loop of [depositToAccount] over the vector, from the element at the
    head of [ds] on.  The element is updated in place; the [try] block
    catches [InvalidInputException] only. *)
Fixpoint depositToAccount_loop (depositorID : string) (amount : float)
    (ds : list Depositor) (out : list output)
  : result bool * list Depositor * list output :=
  match ds with
  | [] => (Ok false, [], out)
  | depositor :: rest =>
      if (getID depositor =? depositorID)%string then
        match deposit amount depositor with
        | (Ok _, depositor') =>
            (Ok true, depositor' :: rest, out ++ [cout_deposit amount depositorID])
        | (Throw (InvalidInputException message), depositor') =>
            (Ok true, depositor' :: rest, out ++ [cerr_error message])
        | (Throw e, depositor') =>
            (Throw e, depositor' :: rest, out)
        end
      else
        let '(r, rest', out') := depositToAccount_loop depositorID amount rest out in
        (r, depositor :: rest', out')
  end.

Definition depositToAccount (depositorID : string) (amount : float) : M Bank bool :=
  fun b =>
    let '(r, ds, out) :=
      depositToAccount_loop depositorID amount (depositors b) (console b) in
    (r, {| depositors := ds; console := out |}).

(** The loop of [calculateTotalDeposits], with the running [total]. *)
Fixpoint calculateTotalDeposits_loop (ds : list Depositor) (total : float)
  : result float :=
  match ds with
  | [] => Ok total
  | depositor :: rest =>
      match getDepositAmount depositor with
      | Ok x => calculateTotalDeposits_loop rest (total + x)
      | Throw e => Throw e
      end
  end.

(** A [const] method: it reads the vector and writes nothing. *)
Definition calculateTotalDeposits (b : Bank) : result float :=
  calculateTotalDeposits_loop (depositors b) 0.

(** The loop of [listDepositors].  The pieces of a line are written from
    left to right, so when [getDepositAmount] throws the identifier and the
    name are already out. *)
Fixpoint listDepositors_loop (ds : list Depositor) (out : list output)
  : result unit * list output :=
  match ds with
  | [] => (Ok tt, out)
  | depositor :: rest =>
      match getDepositAmount depositor with
      | Ok x =>
          listDepositors_loop rest
            (out ++ [cout_line (getID depositor) (getName depositor) x])
      | Throw e =>
          (Throw e, out ++ [cout_line_cut (getID depositor) (getName depositor)])
      end
  end.

Definition listDepositors : M Bank unit :=
  fun b =>
    match depositors b with
    | [] => (Ok tt, {| depositors := depositors b; console := console b ++ [cout_none] |})
    | _ :: _ =>
        let '(r, out) := listDepositors_loop (depositors b) (console b ++ [cout_list]) in
        (r, {| depositors := depositors b; console := out |})
    end.

(** ** [isNumeric] and the C library's [strtod] *)

(** The character classes of the "C" locale that [strtod] reads with. *)
Definition char_in (lo hi : N) (c : ascii) : bool :=
  let n := N_of_ascii c in ((lo <=? n) && (n <=? hi))%N.

Definition isspace (c : ascii) : bool :=
  (char_in 9 13 c || (c =? " ")%char)%bool.

Definition isdigit (c : ascii) : bool := char_in 48 57 c.

Definition isxdigit (c : ascii) : bool :=
  (isdigit c || char_in 65 70 c || char_in 97 102 c)%bool.

(** Punctuation of the "C" locale: the printable characters that are
    neither a space, a digit nor a letter. *)
Definition ispunct (c : ascii) : bool :=
  (char_in 33 47 c || char_in 58 64 c || char_in 91 96 c || char_in 123 126 c)%bool.

(** A character of the sequence between the parentheses of [NAN(...)]: a
    digit, a letter or the underscore. *)
Definition is_nchar (c : ascii) : bool :=
  (isdigit c || isalpha c || (c =? "_")%char)%bool.

Definition is_sign (c : ascii) : bool := ((c =? "+") || (c =? "-"))%char%bool.

(** Case-insensitive test against the lower-case letter [l]. *)
Definition is_letter_ci (l c : ascii) : bool :=
  ((c =? l)%char || (N_of_ascii c + 32 =? N_of_ascii l)%N)%bool.

(** Length of the longest prefix of [s] whose characters all satisfy [p]. *)
Fixpoint span_length (p : ascii -> bool) (s : list ascii) : nat :=
  match s with
  | c :: rest => if p c then S (span_length p rest) else 0
  | [] => 0
  end.

(** [s] starts with the lower-case word [w], ignoring case. *)
Fixpoint prefix_ci (w s : list ascii) : bool :=
  match w, s with
  | [], _ => true
  | l :: w', c :: s' => (is_letter_ci l c && prefix_ci w' s')%bool
  | _ :: _, [] => false
  end.

Definition word_inf : list ascii := list_ascii_of_string "inf".
Definition word_infinity : list ascii := list_ascii_of_string "infinity".
Definition word_nan : list ascii := list_ascii_of_string "nan".

Local Open Scope nat_scope.

(** A non-empty run of digits ([isd]) that may contain one radix
    character: the length of the longest such prefix of [s], 0 when there
    is none. *)
Definition mantissa_length (isd : ascii -> bool) (s : list ascii) : nat :=
  let i := span_length isd s in
  match skipn i s with
  | "."%char :: rest =>
      let f := span_length isd rest in
      if i + f =? 0 then 0 else i + 1 + f
  | _ => i
  end.

(** An exponent part: the marker, an optional sign, a non-empty run of
    decimal digits.  0 when [s] does not start with one. *)
Definition exponent_length (marker : ascii) (s : list ascii) : nat :=
  match s with
  | c :: rest =>
      if is_letter_ci marker c then
        let sg := match rest with
                  | c' :: _ => if is_sign c' then 1 else 0
                  | [] => 0
                  end in
        let d := span_length isdigit (skipn sg rest) in
        if d =? 0 then 0 else 1 + sg + d
      else 0
  | [] => 0
  end.

Definition decimal_length (s : list ascii) : nat :=
  let m := mantissa_length isdigit s in
  if m =? 0 then 0 else m + exponent_length "e" (skipn m s).

Definition hex_length (s : list ascii) : nat :=
  match s with
  | "0"%char :: x :: rest =>
      if is_letter_ci "x" x then
        let m := mantissa_length isxdigit rest in
        if m =? 0 then 0 else 2 + m + exponent_length "p" (skipn m rest)
      else 0
  | _ => 0
  end.

Definition inf_length (s : list ascii) : nat :=
  if prefix_ci word_infinity s then 8
  else if prefix_ci word_inf s then 3
  else 0.

Definition nan_length (s : list ascii) : nat :=
  if prefix_ci word_nan s then
    match skipn 3 s with
    | "("%char :: rest =>
        let k := span_length is_nchar rest in
        match skipn k rest with
        | ")"%char :: _ => 3 + 1 + k + 1
        | _ => 3
        end
    | _ => 3
    end
  else 0.

(** The subject sequence: the longest prefix of one of the four forms. *)
Definition subject_length (s : list ascii) : nat :=
  let h := hex_length s in
  if negb (h =? 0) then h else
  let d := decimal_length s in
  if negb (d =? 0) then d else
  let i := inf_length s in
  if negb (i =? 0) then i else nan_length s.

(** The C library's [strtod], after the C standard (7.22.1.3); it is not
    code of this repository.  [isNumeric] uses only the end pointer:
    [strtod_end] is the offset that [strtod] stores in [*endptr], counted
    in characters from [nptr].  White space is skipped, a sign is optional,
    and the subject sequence follows; when there is none, no conversion is
    done and the offset is 0.  The text is read up to its terminating NUL,
    which belongs to no character class. *)
Definition strtod_end (s : list ascii) : nat :=
  let w := span_length isspace s in
  let s1 := skipn w s in
  let sg := match s1 with
            | c :: _ => if is_sign c then 1 else 0
            | [] => 0
            end in
  let n := subject_length (skipn sg s1) in
  if n =? 0 then 0 else w + sg + n.

(** The character ['\0']. *)
Definition NUL : ascii := Ascii.zero.

(** [str.c_str()]: the characters of [str] and the terminating NUL. *)
Definition c_str (str : string) : list ascii :=
  list_ascii_of_string str ++ [NUL].

Definition isNumeric (str : string) : bool :=
  let buf := c_str str in
  let end_ := strtod_end buf in
  (negb (end_ =? 0) && (nth end_ buf NUL =? NUL)%char)%bool.

Local Close Scope nat_scope.

(** *** What "parses as a floating-point number" means

    The forms that the C standard lets [strtod] accept, written as a
    grammar on the whole text, for comparison with [strtod_end]. *)

Definition all_chars (p : ascii -> bool) (s : list ascii) : Prop :=
  Forall (fun c => p c = true) s.

(** [s] is the lower-case word [w] up to the case of its letters. *)
Definition same_ci (w s : list ascii) : Prop :=
  Forall2 (fun l c => is_letter_ci l c = true) w s.

Inductive sign_part : list ascii -> Prop :=
| sign_absent : sign_part []
| sign_present c : is_sign c = true -> sign_part [c].

(** A non-empty sequence of digits optionally containing a radix character. *)
Inductive digits_part (isd : ascii -> bool) : list ascii -> Prop :=
| digits_whole i :
    i <> [] -> all_chars isd i -> digits_part isd i
| digits_radix i f :
    i ++ f <> [] -> all_chars isd i -> all_chars isd f ->
    digits_part isd (i ++ "."%char :: f).

Inductive exponent_part (marker : ascii) : list ascii -> Prop :=
| exponent_absent : exponent_part marker []
| exponent_present c sg d :
    is_letter_ci marker c = true -> sign_part sg ->
    d <> [] -> all_chars isdigit d ->
    exponent_part marker (c :: sg ++ d).

Inductive float_subject : list ascii -> Prop :=
| subject_decimal m e :
    digits_part isdigit m -> exponent_part "e" e -> float_subject (m ++ e)
| subject_hex x m e :
    is_letter_ci "x" x = true ->
    digits_part isxdigit m -> exponent_part "p" e ->
    float_subject ("0"%char :: x :: m ++ e)
| subject_inf s : same_ci word_inf s -> float_subject s
| subject_infinity s : same_ci word_infinity s -> float_subject s
| subject_nan s : same_ci word_nan s -> float_subject s
| subject_nan_chars s q :
    same_ci word_nan s -> all_chars is_nchar q ->
    float_subject (s ++ "("%char :: q ++ [")"%char]).

(** The whole of [s] is a floating-point number as [strtod] reads one:
    optional white space, an optional sign, a subject sequence, and nothing
    after it. *)
Definition float_text (s : list ascii) : Prop :=
  exists w sg b,
    s = w ++ sg ++ b /\ all_chars isspace w /\ sign_part sg /\ float_subject b.

(** The C string in a buffer: the characters before the first NUL. *)
Fixpoint c_string (s : list ascii) : list ascii :=
  match s with
  | [] => []
  | c :: rest => if (c =? NUL)%char then [] else c :: c_string rest
  end.

(** ** Sequences of calls *)

(** The sum that [calculateTotalDeposits] accumulates: from 0, left to
    right, in binary64. *)
Definition float_sum (xs : list float) : float := fold_left PrimFloat.add xs 0.

(** Index of the first element of the vector whose identifier is [id]. *)
Fixpoint first_match (id : string) (ds : list Depositor) : option nat :=
  match ds with
  | [] => None
  | d :: rest =>
      if (getID d =? id)%string then Some O
      else option_map S (first_match id rest)
  end.

(** [v[i] = d], nothing when [i] is out of range. *)
Fixpoint set_nth (i : nat) (d : Depositor) (ds : list Depositor) : list Depositor :=
  match ds, i with
  | [], _ => []
  | _ :: rest, O => d :: rest
  | x :: rest, S i' => x :: set_nth i' d rest
  end.

(** One call of a core operation.  [call_deposit i a] is
    [Depositor::deposit(a)] on the [i]-th element of the vector. *)
Inductive core_call : Type :=
| call_addDepositor (n : Z) (name : string) (strategy : IDeposit)
| call_deposit (i : nat) (amount : float)
| call_depositToAccount (depositorID : string) (amount : float)
| call_calculateTotalDeposits
| call_listDepositors.

(** The bank after the call, whether it returned or threw. *)
Definition exec (c : core_call) (b : Bank) : Bank :=
  match c with
  | call_addDepositor n name strategy => snd (addDepositor n name strategy b)
  | call_deposit i amount =>
      match nth_error (depositors b) i with
      | Some d =>
          {| depositors := set_nth i (snd (deposit amount d)) (depositors b);
             console := console b |}
      | None => b
      end
  | call_depositToAccount depositorID amount => snd (depositToAccount depositorID amount b)
  | call_calculateTotalDeposits => b
  | call_listDepositors => snd (listDepositors b)
  end.

Definition run (cs : list core_call) (b : Bank) : Bank :=
  fold_left (fun b c => exec c b) cs b.

(** The amount a call passes to [deposit], when it passes one. *)
Definition call_amount (c : core_call) : option float :=
  match c with
  | call_deposit _ amount | call_depositToAccount _ amount => Some amount
  | _ => None
  end.

(** No call of [cs] passes a NaN. *)
Definition no_nan (cs : list core_call) : Prop :=
  forall c a, In c cs -> call_amount c = Some a -> is_nan a = false.

(** ** Balances over time *)

(** A binary64 number that is not below zero: a zero, a positive number,
    plus infinity, or NaN (which compares false with everything). *)
Definition SFnonneg (x : spec_float) : Prop := SFltb x (S754_zero false) = false.

(** [new] is not a decrease of [old]: [old <= new], or [new] is NaN, from
    which no later addition comes back. *)
Definition not_decreased (old new : float) : Prop :=
  is_nan new = true \/ (old <=? new) = true.

(** [d'] is the depositor [d], later: what never changes is the same. *)
Definition same_account (d d' : Depositor) : Prop :=
  getID d' = getID d /\ getName d' = getName d /\
  depositStrategy d' = depositStrategy d.

(** [d'] is [d] later, with a raw balance that did not decrease. *)
Definition grew (d d' : Depositor) : Prop :=
  same_account d d' /\ not_decreased (amount d) (amount d').

(** An element of the vector after one call that passes [a] to [deposit],
    if it passes anything: untouched, or after [deposit(a)]. *)
Definition elem_step (a : option float) (d d' : Depositor) : Prop :=
  d' = d \/ exists x, a = Some x /\ d' = snd (deposit x d).

(** [l'] is [l] with its elements related by [R], and maybe more elements
    at the end. *)
Inductive extends (R : Depositor -> Depositor -> Prop)
  : list Depositor -> list Depositor -> Prop :=
| extends_nil l' : extends R [] l'
| extends_cons d d' l l' : R d d' -> extends R l l' -> extends R (d :: l) (d' :: l').

(** ** Listings, registry size and the limit of the Fixed strategy *)

(** The line of [listDepositors] for depositor [d] with reported balance [x]. *)
Definition report_line (dx : Depositor * float) : output :=
  cout_line (getID (fst dx)) (getName (fst dx)) (snd dx).

(** How many of the calls are [addDepositor]. *)
Fixpoint count_addDepositor (cs : list core_call) : nat :=
  match cs with
  | [] => 0
  | call_addDepositor _ _ _ :: rest => S (count_addDepositor rest)
  | _ :: rest => count_addDepositor rest
  end.

(** The strategy of [d] rejects its raw balance: a Fixed depositor above
    1,000,000. *)
Definition over_limit (d : Depositor) : Prop :=
  depositStrategy d = FixedDeposit /\ (1000000 <? amount d) = true.

(** * Properties *)

(** ** Comparisons of binary64 numbers *)

Lemma SFcompare_antisym (x y : spec_float) :
  SFcompare y x = option_map CompOpp (SFcompare x y).
Proof.
  destruct x as [sx|sx| |sx mx ex], y as [sy|sy| |sy my ey]; simpl;
    try reflexivity;
    try (destruct sx; reflexivity); try (destruct sy; reflexivity);
    try (destruct sx, sy; reflexivity).
  fold (Pos.compare mx my). fold (Pos.compare my mx).
  rewrite (Z.compare_antisym ex ey), (Pos.compare_antisym mx my).
  destruct sx, sy; simpl; try reflexivity;
    destruct (ex ?= ey)%Z; simpl; try reflexivity;
    destruct (mx ?= my)%positive; reflexivity.
Qed.

Lemma leb_not_ltb (x y : float) : (x <=? y) = true -> (y <? x) = false.
Proof.
  rewrite leb_spec, ltb_spec. unfold SFleb, SFltb.
  rewrite (SFcompare_antisym (Prim2SF x) (Prim2SF y)).
  destruct (SFcompare (Prim2SF x) (Prim2SF y)) as [[ | | ]|]; simpl; congruence.
Qed.

Lemma leb_or_ltb (x y : float) :
  is_nan x = false -> is_nan y = false -> (x <=? y) = true \/ (y <? x) = true.
Proof.
  unfold is_nan. rewrite !eqb_spec, leb_spec, ltb_spec.
  unfold SFeqb, SFleb, SFltb.
  rewrite (SFcompare_antisym (Prim2SF x) (Prim2SF y)).
  destruct (Prim2SF x) as [sx|sx| |sx mx ex], (Prim2SF y) as [sy|sy| |sy my ey];
    simpl; try discriminate; intros _ _;
    try (destruct sx; simpl; auto; fail); try (destruct sy; simpl; auto; fail);
    try (destruct sx, sy; simpl; auto; fail); auto.
  destruct sx, sy; simpl; auto;
    destruct (ex ?= ey)%Z; simpl; auto;
    destruct (Pos.compare_cont Eq mx my); simpl; auto.
Qed.

Lemma leb_not_nan (x y : float) :
  (x <=? y) = true -> is_nan x = false /\ is_nan y = false.
Proof.
  unfold is_nan. rewrite !eqb_spec, leb_spec. unfold SFeqb, SFleb.
  destruct (Prim2SF x) as [sx|sx| |sx mx ex], (Prim2SF y) as [sy|sy| |sy my ey];
    simpl; try discriminate; intros _;
    rewrite ?Z.compare_refl, ?Pos.compare_cont_refl;
    repeat match goal with s : bool |- _ => destruct s end; simpl;
    rewrite ?Pos.compare_cont_refl; auto.
Qed.

(** ** The Fixed strategy *)

(** C1. For every non-negative amount [a], [FixedDeposit::calculateDeposit]
    returns [a + 100] when [a <= 1000000] and throws the amount-too-large
    exception ([InvalidInputException]) when [a > 1000000]; one of the two
    cases applies. *)
Theorem FixedDeposit_calculateDeposit_spec (a : float) :
  (0 <=? a) = true ->
  ((a <=? 1000000) = true ->
     calculateDeposit FixedDeposit a = Ok (a + 100)) /\
  ((1000000 <? a) = true ->
     calculateDeposit FixedDeposit a
     = Throw (InvalidInputException FixedDeposit_message)) /\
  ((a <=? 1000000) = true \/ (1000000 <? a) = true).
Proof.
  intros Ha. unfold calculateDeposit, FixedDeposit_calculateDeposit.
  split; [|split].
  - intros Hle. now rewrite (leb_not_ltb _ _ Hle).
  - intros Hgt. now rewrite Hgt.
  - apply leb_or_ltb; [apply (leb_not_nan _ _ Ha) | reflexivity].
Qed.

Lemma FixedDeposit_calculateDeposit_witness :
  (0 <=? 200) = true /\
  calculateDeposit FixedDeposit 200 = Ok (200 + 100) /\
  calculateDeposit FixedDeposit 1000000.5
  = Throw (InvalidInputException FixedDeposit_message).
Proof.
  split; [reflexivity|]. split.
  - apply (FixedDeposit_calculateDeposit_spec 200); reflexivity.
  - apply (FixedDeposit_calculateDeposit_spec 1000000.5); reflexivity.
Defined.

(** ** Validation of amounts *)

(** C6. [validateDepositAmount a] throws [NegativeDepositException] if and
    only if [a < 0]; otherwise it returns.  It is a function of [a] alone:
    it reads and writes nothing else. *)
Theorem validateDepositAmount_spec (a : float) :
  (validateDepositAmount a = Throw NegativeDepositException <-> (a <? 0) = true) /\
  (validateDepositAmount a = Ok tt <-> (a <? 0) = false).
Proof.
  unfold validateDepositAmount.
  destruct (a <? 0); repeat split; congruence.
Qed.

(** ** [Depositor::deposit] *)

Lemma deposit_unfold (a : float) (d : Depositor) :
  deposit a d =
  if a <? 0 then (Throw NegativeDepositException, d)
  else match calculateDeposit (depositStrategy d) a with
       | Ok credited => (Ok tt, add_amount credited d)
       | Throw e => (Throw e, d)
       end.
Proof.
  unfold deposit, bind, call, gets, modify, validateDepositAmount.
  destruct (a <? 0); [reflexivity|].
  destruct (calculateDeposit (depositStrategy d) a); reflexivity.
Qed.

(** The only exception a strategy throws is the amount-too-large one of
    the Fixed strategy. *)
Lemma calculateDeposit_Throw (s : IDeposit) (a : float) (e : exn) :
  calculateDeposit s a = Throw e ->
  s = FixedDeposit /\ (1000000 <? a) = true /\
  e = InvalidInputException FixedDeposit_message.
Proof.
  destruct s; simpl; unfold FixedDeposit_calculateDeposit, NormalDeposit_calculateDeposit.
  - destruct (1000000 <? a); intros H; inversion H; auto.
  - discriminate.
Qed.

(** C2. [deposit(amount)] first throws [NegativeDepositException] when the
    amount is negative; otherwise it computes the strategy's
    [calculateDeposit(amount)], whose exception (amount too large) it lets
    through; only when that returns is the result added to the raw balance.
    When either step throws, the depositor is unchanged; when both
    succeed, only the balance changes. *)
Theorem deposit_spec (d : Depositor) (a : float) :
  ((a <? 0) = true -> deposit a d = (Throw NegativeDepositException, d)) /\
  ((a <? 0) = false ->
   forall e, calculateDeposit (depositStrategy d) a = Throw e ->
     deposit a d = (Throw e, d) /\ e = InvalidInputException FixedDeposit_message) /\
  ((a <? 0) = false ->
   forall credited, calculateDeposit (depositStrategy d) a = Ok credited ->
     exists d', deposit a d = (Ok tt, d') /\
       amount d' = amount d + credited /\
       name d' = name d /\ depositStrategy d' = depositStrategy d /\
       depositorID d' = depositorID d).
Proof.
  rewrite deposit_unfold. repeat split.
  - intros ->. reflexivity.
  - rewrite H, H0. reflexivity.
  - now apply calculateDeposit_Throw in H0.
  - intros Hneg credited Hc. rewrite Hneg, Hc.
    exists (add_amount credited d). repeat split.
Qed.

Lemma deposit_spec_witness :
  deposit (-1) (Depositor_new "PZ100000" "Bob" 300 FixedDeposit)
  = (Throw NegativeDepositException, Depositor_new "PZ100000" "Bob" 300 FixedDeposit) /\
  (deposit 999999999 (Depositor_new "PZ100000" "Bob" 300 FixedDeposit)
   = (Throw (InvalidInputException FixedDeposit_message),
      Depositor_new "PZ100000" "Bob" 300 FixedDeposit) /\
   InvalidInputException FixedDeposit_message
   = InvalidInputException FixedDeposit_message) /\
  exists d', deposit 200 (Depositor_new "PZ100000" "Bob" 300 FixedDeposit) = (Ok tt, d') /\
    amount d' = 300 + 300 /\ name d' = "Bob" /\ depositStrategy d' = FixedDeposit /\
    depositorID d' = "PZ100000".
Proof.
  pose (d := Depositor_new "PZ100000" "Bob" 300 FixedDeposit).
  split; [|split].
  - exact (proj1 (deposit_spec d (-1)) eq_refl).
  - exact (proj1 (proj2 (deposit_spec d 999999999)) eq_refl _ eq_refl).
  - exact (proj2 (proj2 (deposit_spec d 200)) eq_refl _ eq_refl).
Defined.

(** ** [Bank::depositToAccount] *)

Lemma first_match_None (id : string) (ds : list Depositor) :
  first_match id ds = None <-> (forall d, In d ds -> getID d <> id).
Proof.
  induction ds as [|x ds IH]; simpl.
  - split; [|reflexivity]. intros _ d Hd. destruct Hd.
  - destruct (String.eqb_spec (getID x) id) as [E|E].
    + split; [discriminate|]. intros H. exfalso. apply (H x); auto.
    + destruct (first_match id ds) as [n|]; simpl.
      * split; [discriminate|]. intros H.
        assert (Hn : Some n = None) by (apply IH; intros d Hd; apply H; now right).
        discriminate Hn.
      * split; [|reflexivity]. intros _ d [<-|Hd]; [exact E|].
        now apply (proj1 IH).
Qed.

Lemma first_match_Some (id : string) (ds : list Depositor) (i : nat) :
  first_match id ds = Some i ->
  exists pre d post,
    ds = pre ++ d :: post /\ List.length pre = i /\
    first_match id pre = None /\ getID d = id.
Proof.
  revert i. induction ds as [|x ds IH]; simpl; [discriminate|]. intros i.
  destruct (String.eqb_spec (getID x) id) as [E|E].
  - intros [= <-]. now exists [], x, ds.
  - destruct (first_match id ds) as [j|]; [|discriminate]. intros [= <-].
    destruct (IH j eq_refl) as (pre & d & post & -> & <- & Hpre & Hd).
    exists (x :: pre), d, post. simpl. repeat split; auto.
    destruct (String.eqb_spec (getID x) id); [contradiction|]. now rewrite Hpre.
Qed.

Lemma first_match_app (id : string) (pre : list Depositor) (d : Depositor)
    (post : list Depositor) :
  first_match id pre = None -> getID d = id ->
  first_match id (pre ++ d :: post) = Some (List.length pre).
Proof.
  intros Hpre Hd. induction pre as [|x pre IH]; simpl in *.
  - rewrite Hd, String.eqb_refl. reflexivity.
  - destruct (getID x =? id)%string; [discriminate|].
    destruct (first_match id pre); [discriminate|]. now rewrite IH.
Qed.

Lemma first_match_found (id : string) (ds : list Depositor) :
  (exists d, In d ds /\ getID d = id) <-> (exists i, first_match id ds = Some i).
Proof.
  split.
  - intros (d & Hin & Hd). destruct (first_match id ds) as [i|] eqn:E; [eauto|].
    exfalso. exact (proj1 (first_match_None id ds) E d Hin Hd).
  - intros (i & Hi). destruct (first_match_Some _ _ _ Hi) as (pre & d & post & -> & _ & _ & Hd).
    exists d. split; [|exact Hd]. apply in_or_app. right. now left.
Qed.

Lemma depositToAccount_loop_None (id : string) (a : float) (ds : list Depositor)
    (out : list output) :
  first_match id ds = None ->
  depositToAccount_loop id a ds out = (Ok false, ds, out).
Proof.
  induction ds as [|x ds IH]; simpl; [reflexivity|].
  destruct (getID x =? id)%string; [discriminate|].
  destruct (first_match id ds); [discriminate|]. intros _. now rewrite IH.
Qed.

(** The loop stops at the first element whose identifier matches, and what
    it does there is the [try] block on that element. *)
Lemma depositToAccount_loop_Some (id : string) (a : float)
    (pre : list Depositor) (d : Depositor) (post : list Depositor) (out : list output) :
  first_match id pre = None -> getID d = id ->
  depositToAccount_loop id a (pre ++ d :: post) out =
  match deposit a d with
  | (Ok _, d') => (Ok true, pre ++ d' :: post, out ++ [cout_deposit a id])
  | (Throw (InvalidInputException message), d') =>
      (Ok true, pre ++ d' :: post, out ++ [cerr_error message])
  | (Throw e, d') => (Throw e, pre ++ d' :: post, out)
  end.
Proof.
  intros Hpre Hd. induction pre as [|x pre IH]; simpl in *.
  - rewrite Hd, String.eqb_refl. destruct (deposit a d) as [[u|[m|]] d']; reflexivity.
  - destruct (getID x =? id)%string; [discriminate|].
    destruct (first_match id pre); [discriminate|]. rewrite (IH eq_refl).
    destruct (deposit a d) as [[u|[m|]] d']; reflexivity.
Qed.

Lemma depositToAccount_absent (b : Bank) (id : string) (a : float) :
  first_match id (depositors b) = None ->
  depositToAccount id a b = (Ok false, b).
Proof.
  intros H. unfold depositToAccount.
  rewrite (depositToAccount_loop_None _ _ _ _ H). now destruct b.
Qed.

Lemma depositToAccount_at (b : Bank) (id : string) (a : float)
    (pre : list Depositor) (d : Depositor) (post : list Depositor) :
  depositors b = pre ++ d :: post -> first_match id pre = None -> getID d = id ->
  depositToAccount id a b =
  if a <? 0 then (Throw NegativeDepositException, b)
  else match calculateDeposit (depositStrategy d) a with
       | Ok credited =>
           (Ok true,
            {| depositors := pre ++ add_amount credited d :: post;
               console := console b ++ [cout_deposit a id] |})
       | Throw e =>
           (Ok true,
            {| depositors := depositors b;
               console := console b ++ [cerr_error (what e)] |})
       end.
Proof.
  intros Hb Hpre Hd. unfold depositToAccount.
  rewrite Hb, (depositToAccount_loop_Some _ _ _ _ _ _ Hpre Hd), deposit_unfold.
  destruct (a <? 0).
  - destruct b; simpl in *. now rewrite Hb.
  - destruct (calculateDeposit (depositStrategy d) a) as [c|e] eqn:E; [reflexivity|].
    apply calculateDeposit_Throw in E. destruct E as (_ & _ & ->). reflexivity.
Qed.

(** C3, as the code has it.  [depositToAccount] returns false exactly when
    no depositor has the identifier, and then nothing changes.  When some
    depositor has it, the call returns true unless the amount is negative:
    then [NegativeDepositException], which the [try] block does not catch,
    leaves the function and nothing has changed.  When the first matching
    depositor's strategy throws the amount-too-large exception, it is
    caught: the message goes to [std::cerr], the vector (every raw balance)
    is unchanged and the call returns true. *)
Theorem depositToAccount_spec (b : Bank) (id : string) (a : float) :
  let found := exists d, In d (depositors b) /\ getID d = id in
  (fst (depositToAccount id a b) = Ok false <-> ~ found) /\
  (fst (depositToAccount id a b) = Ok true <-> found /\ (a <? 0) = false) /\
  (fst (depositToAccount id a b) = Throw NegativeDepositException
   <-> found /\ (a <? 0) = true) /\
  (fst (depositToAccount id a b) <> Ok true -> snd (depositToAccount id a b) = b) /\
  (forall pre d post e,
     depositors b = pre ++ d :: post ->
     (forall x, In x pre -> getID x <> id) -> getID d = id ->
     fst (deposit a d) = Throw e -> e <> NegativeDepositException ->
     depositToAccount id a b =
     (Ok true, {| depositors := depositors b;
                  console := console b ++ [cerr_error (what e)] |})).
Proof.
  intros found. subst found. rewrite first_match_found.
  destruct (first_match id (depositors b)) as [i|] eqn:Hm.
  - destruct (first_match_Some _ _ _ Hm) as (pre & d & post & Hb & _ & Hpre & Hd).
    rewrite (depositToAccount_at b id a pre d post Hb Hpre Hd).
    assert (Hat : forall pre' d' post',
               depositors b = pre' ++ d' :: post' ->
               (forall x, In x pre' -> getID x <> id) -> getID d' = id ->
               pre' = pre /\ d' = d /\ post' = post).
    { intros pre' d' post' Hb' Hpre' Hd'.
      apply first_match_None in Hpre'.
      pose proof (first_match_app id pre' d' post' Hpre' Hd') as E.
      rewrite <- Hb', Hb, (first_match_app id pre d post Hpre Hd) in E.
      injection E as E. rewrite Hb in Hb'. clear - E Hb'.
      revert pre' E Hb'. induction pre as [|x pre IH]; intros [|x' pre']; simpl;
        try discriminate.
      - intros _ [= -> ->]. auto.
      - intros [= E] [= -> Hb']. destruct (IH pre' E Hb') as (-> & -> & ->). auto. }
    destruct (a <? 0) eqn:Ha; [|destruct (calculateDeposit (depositStrategy d) a) as [c|e0] eqn:Hc];
      simpl; (split; [|split; [|split; [|split]]]);
      try (split; [discriminate|]); try (split; [intros _|]);
      try reflexivity; try congruence; eauto;
      try (intros [H _]; exfalso; apply H; eauto; fail);
      try (intros [_ H]; discriminate H);
      try (intros H; exfalso; apply H; eauto; fail).
    + intros pre' d' post' e Hb' Hpre' Hd' He Hne.
      destruct (Hat _ _ _ Hb' Hpre' Hd') as (-> & -> & ->).
      rewrite deposit_unfold, Ha in He. simpl in He. congruence.
    + intros pre' d' post' e Hb' Hpre' Hd' He Hne.
      destruct (Hat _ _ _ Hb' Hpre' Hd') as (-> & -> & ->).
      rewrite deposit_unfold, Ha, Hc in He. discriminate He.
    + intros pre' d' post' e Hb' Hpre' Hd' He Hne.
      destruct (Hat _ _ _ Hb' Hpre' Hd') as (-> & -> & ->).
      rewrite deposit_unfold, Ha, Hc in He. simpl in He. congruence.
  - rewrite (depositToAccount_absent b id a Hm). simpl.
    split; [|split; [|split; [|split]]].
    + split; [intros _ [j Hj]; discriminate Hj|reflexivity].
    + split; [discriminate|intros [[j Hj] _]; discriminate Hj].
    + split; [discriminate|intros [[j Hj] _]; discriminate Hj].
    + reflexivity.
    + intros pre d post e Hb Hpre Hd. exfalso.
      apply first_match_None in Hpre.
      rewrite Hb, (first_match_app id pre d post Hpre Hd) in Hm. discriminate Hm.
Qed.

Lemma depositToAccount_spec_witness :
  let bob := Depositor_new "PZ100000" "Bob" 300 FixedDeposit in
  let b := {| depositors := [bob]; console := [] |} in
  depositToAccount "PZ100000" 999999999 b
  = (Ok true, {| depositors := [bob];
                 console := [cerr_error FixedDeposit_message] |}) /\
  fst (depositToAccount "PZ000000" 10 b) = Ok false.
Proof.
  intros bob b. split.
  - refine (proj2 (proj2 (proj2 (proj2
      (depositToAccount_spec b "PZ100000" 999999999))))
      [] bob [] (InvalidInputException FixedDeposit_message)
      eq_refl _ eq_refl eq_refl _).
    + intros x Hx. destruct Hx.
    + discriminate.
  - apply (proj1 (depositToAccount_spec b "PZ000000" 10)).
    intros (d & [<-|[]] & Hd). discriminate Hd.
Defined.

(** C3 without the condition on the amount fails: a depositor has the
    identifier, yet the call does not return true, it throws. *)
Lemma depositToAccount_negative_counterexample :
  let b := {| depositors := [Depositor_new "PZ100000" "Bob" 0 NormalDeposit];
              console := [] |} in
  (exists d, In d (depositors b) /\ getID d = "PZ100000") /\
  fst (depositToAccount "PZ100000" (-1) b) = Throw NegativeDepositException /\
  fst (depositToAccount "PZ100000" (-1) b) <> Ok true.
Proof.
  intros b. split; [|split].
  - exists (Depositor_new "PZ100000" "Bob" 0 NormalDeposit). split; [now left|reflexivity].
  - reflexivity.
  - discriminate.
Qed.

(** C10. [depositToAccount] changes at most the raw balance of the first
    depositor, in the order of the vector, whose identifier matches: the
    vector keeps its length and its order, every depositor keeps its
    identifier, name and strategy, and every depositor other than the
    first match is unchanged, also when others have the same identifier. *)
Theorem depositToAccount_frame (b : Bank) (id : string) (a : float) :
  let b' := snd (depositToAccount id a b) in
  List.length (depositors b') = List.length (depositors b) /\
  forall i d, nth_error (depositors b) i = Some d ->
    exists d', nth_error (depositors b') i = Some d' /\
      getID d' = getID d /\ getName d' = getName d /\
      depositStrategy d' = depositStrategy d /\
      (first_match id (depositors b) <> Some i -> d' = d).
Proof.
  intros b'. subst b'.
  destruct (first_match id (depositors b)) as [j|] eqn:Hm.
  - destruct (first_match_Some _ _ _ Hm) as (pre & x & post & Hb & Hj & Hpre & Hx).
    rewrite (depositToAccount_at b id a pre x post Hb Hpre Hx).
    destruct (a <? 0); [|destruct (calculateDeposit (depositStrategy x) a) as [c|e]];
      simpl; try (split; [reflexivity|]; intros i d Hi; exists d; now auto).
    rewrite Hb, !length_app. split; [reflexivity|].
    intros i d Hi.
    destruct (Nat.lt_ge_cases i (List.length pre)) as [Hlt|Hge].
    + rewrite nth_error_app1 in Hi |- * by assumption. exists d. now auto.
    + rewrite nth_error_app2 in Hi |- * by assumption.
      destruct (i - List.length pre)%nat as [|k] eqn:Hk; simpl in *.
      * injection Hi as <-. exists (add_amount c x). repeat split.
        intros Hne. exfalso. apply Hne. f_equal. lia.
      * exists d. now auto.
  - rewrite (depositToAccount_absent b id a Hm). simpl.
    split; [reflexivity|]. intros i d Hi. exists d. now auto.
Qed.

(** Two depositors with the same identifier, as [addDepositor] makes them
    when the generator draws the same number twice: a deposit reaches the
    first and leaves the second as it was. *)
Lemma depositToAccount_frame_witness :
  let b := snd (bind (addDepositor 100000 "Ann" NormalDeposit)
                  (fun _ => addDepositor 100000 "Bob" NormalDeposit) Bank_new) in
  nth_error (depositors b) 1 = Some (Depositor_new "PZ100000" "Bob" 0 NormalDeposit) /\
  exists d', nth_error (depositors (snd (depositToAccount "PZ100000" 500 b))) 1 = Some d' /\
    getID d' = "PZ100000" /\ getName d' = "Bob" /\ depositStrategy d' = NormalDeposit /\
    d' = Depositor_new "PZ100000" "Bob" 0 NormalDeposit.
Proof.
  intros b. split; [reflexivity|].
  destruct (proj2 (depositToAccount_frame b "PZ100000" 500) 1%nat
              (Depositor_new "PZ100000" "Bob" 0 NormalDeposit) eq_refl)
    as (d' & H1 & H2 & H3 & H4 & H5).
  exists d'. repeat split; try assumption.
  apply H5. discriminate.
Defined.

(** ** [Bank::calculateTotalDeposits] *)

Lemma calculateTotalDeposits_loop_Ok (ds : list Depositor) (vs : list float)
    (total : float) :
  map getDepositAmount ds = map Ok vs ->
  calculateTotalDeposits_loop ds total = Ok (fold_left PrimFloat.add vs total).
Proof.
  revert vs total. induction ds as [|d ds IH]; intros [|v vs] total; simpl;
    try discriminate; [reflexivity|].
  intros [= Hd Hds]. rewrite Hd. now apply IH.
Qed.

Lemma calculateTotalDeposits_loop_Throw (pre : list Depositor) (d : Depositor)
    (post : list Depositor) (e : exn) (total : float) :
  (forall x, In x pre -> exists v, getDepositAmount x = Ok v) ->
  getDepositAmount d = Throw e ->
  calculateTotalDeposits_loop (pre ++ d :: post) total = Throw e.
Proof.
  intros Hpre Hd. revert total. induction pre as [|x pre IH]; intros total; simpl.
  - now rewrite Hd.
  - destruct (Hpre x (or_introl eq_refl)) as [v ->].
    apply IH. intros y Hy. apply Hpre. now right.
Qed.

(** C5. [calculateTotalDeposits] returns the sum, over the depositors in
    the order of the vector, of their reported balances, where the reported
    balance [getDepositAmount] is the strategy's [calculateDeposit] of the
    raw balance; when the strategy of some depositor throws on its raw
    balance, that exception (of the first such depositor) leaves
    [calculateTotalDeposits] and no total is returned. *)
Theorem calculateTotalDeposits_spec (b : Bank) :
  (forall d, getDepositAmount d = calculateDeposit (depositStrategy d) (amount d)) /\
  (forall vs, map getDepositAmount (depositors b) = map Ok vs ->
     calculateTotalDeposits b = Ok (float_sum vs)) /\
  (forall pre d post e,
     depositors b = pre ++ d :: post ->
     (forall x, In x pre -> exists v, getDepositAmount x = Ok v) ->
     getDepositAmount d = Throw e ->
     calculateTotalDeposits b = Throw e /\
     e = InvalidInputException FixedDeposit_message).
Proof.
  split; [reflexivity|]. split.
  - intros vs H. now apply calculateTotalDeposits_loop_Ok.
  - intros pre d post e Hb Hpre Hd. unfold calculateTotalDeposits. rewrite Hb. split.
    + now apply calculateTotalDeposits_loop_Throw.
    + now apply calculateDeposit_Throw in Hd.
Qed.

Lemma calculateTotalDeposits_spec_witness :
  let ann := Depositor_new "PZ100001" "Ann" 500 NormalDeposit in
  let bob := Depositor_new "PZ100002" "Bob" 300 FixedDeposit in
  let cat := Depositor_new "PZ100003" "Cat" 1000100 FixedDeposit in
  calculateTotalDeposits {| depositors := [ann; bob]; console := [] |}
  = Ok (float_sum [500; 400]) /\
  calculateTotalDeposits {| depositors := [ann; cat; bob]; console := [] |}
  = Throw (InvalidInputException FixedDeposit_message).
Proof.
  intros ann bob cat. split.
  - exact (proj1 (proj2 (calculateTotalDeposits_spec
             {| depositors := [ann; bob]; console := [] |})) [500; 400] eq_refl).
  - refine (proj1 (proj2 (proj2 (calculateTotalDeposits_spec
             {| depositors := [ann; cat; bob]; console := [] |}))
             [ann] cat [bob] _ eq_refl _ eq_refl)).
    intros x [<-|[]]. exists 500. reflexivity.
Defined.

(** ** The scenario of a first deposit on a Fixed account *)

(** C4, as the code has it.  A depositor is added with the Fixed strategy
    (raw balance 0) under an identifier no earlier depositor has; a
    deposit of 200 to that identifier returns true, and the raw balance is
    then 300, the credited amount [200 + 100]; the reported balance is
    [calculateDeposit] of the Fixed strategy on that raw balance, 400. *)
Theorem Fixed_first_deposit (b : Bank) (n : Z) (name : string) :
  (forall d, In d (depositors b) -> getID d <> generateRandomID n) ->
  let b1 := snd (addDepositor n name FixedDeposit b) in
  let r := depositToAccount (generateRandomID n) 200 b1 in
  fst r = Ok true /\
  exists d,
    depositors (snd r) = depositors b ++ [d] /\
    getID d = generateRandomID n /\ getName d = name /\
    amount d = 300 /\
    getDepositAmount d = calculateDeposit FixedDeposit (amount d) /\
    getDepositAmount d = Ok 400.
Proof.
  intros Hfresh b1 r. subst r b1.
  apply first_match_None in Hfresh.
  rewrite (depositToAccount_at (snd (addDepositor n name FixedDeposit b))
             (generateRandomID n) 200 (depositors b)
             (Depositor_new (generateRandomID n) name 0 FixedDeposit) []
             eq_refl Hfresh eq_refl).
  change (200 <? 0) with false. cbv iota.
  change (calculateDeposit _ 200) with (@Ok float 300).
  cbv iota. split; [reflexivity|].
  exists (add_amount 300 (Depositor_new (generateRandomID n) name 0 FixedDeposit)).
  repeat split.
Qed.

Lemma Fixed_first_deposit_witness :
  let b := snd (addDepositor 100001 "Alice" NormalDeposit Bank_new) in
  let r := depositToAccount "PZ100002" 200 (snd (addDepositor 100002 "Bob" FixedDeposit b)) in
  fst r = Ok true /\
  exists d,
    depositors (snd r) = depositors b ++ [d] /\
    getID d = "PZ100002" /\ getName d = "Bob" /\ amount d = 300 /\
    getDepositAmount d = calculateDeposit FixedDeposit (amount d) /\
    getDepositAmount d = Ok 400.
Proof.
  intros b r.
  refine (Fixed_first_deposit b 100002 "Bob" _).
  intros d [<-|[]]. discriminate.
Defined.

(** C4 with a raw balance of 200 fails: after the deposit of 200 it is
    not 200. *)
Lemma Fixed_first_deposit_counterexample :
  let r := bind (addDepositor 100002 "Bob" FixedDeposit)
             (fun _ => depositToAccount "PZ100002" 200) Bank_new in
  fst r = Ok true /\
  exists d, depositors (snd r) = [d] /\ amount d = 300 /\ amount d <> 200.
Proof.
  intros r. split; [reflexivity|].
  eexists. split; [reflexivity|]. split; [reflexivity|].
  simpl. intros H. apply (f_equal (fun x => x <? 250)) in H.
  vm_compute in H. discriminate H.
Qed.

(** ** [isValidName] *)

Lemma isalpha_letters (c : ascii) : isalpha c = true <-> In c letters.
Proof.
  assert (E : isalpha c = existsb (Ascii.eqb c) letters).
  { destruct c as [[] [] [] [] [] [] [] []]; reflexivity. }
  rewrite E, existsb_exists. split.
  - intros (l & Hl & Hc). apply Ascii.eqb_eq in Hc. now subst.
  - intros H. exists c. split; [exact H|apply Ascii.eqb_refl].
Qed.

Lemma isValidName_forallb (text : string) :
  isValidName text = forallb isalpha (list_ascii_of_string text).
Proof.
  induction text as [|c text IH]; simpl; [reflexivity|].
  destruct (isalpha c); simpl; [exact IH|reflexivity].
Qed.

Lemma not_isalpha (c : ascii) :
  isdigit c = true \/ isspace c = true \/ ispunct c = true -> isalpha c = false.
Proof.
  destruct c as [[] [] [] [] [] [] [] []]; vm_compute; intuition discriminate.
Qed.

(** C7. [isValidName text] is true if and only if every character of
    [text] is an alphabetic letter; so it is false for a text that
    contains a digit, a space or a punctuation character, and true for the
    empty text. *)
Theorem isValidName_spec (text : string) :
  (isValidName text = true <->
   forall c, In c (list_ascii_of_string text) -> In c letters) /\
  (forall c, In c (list_ascii_of_string text) ->
     isdigit c = true \/ isspace c = true \/ ispunct c = true ->
     isValidName text = false) /\
  isValidName "" = true.
Proof.
  assert (H : isValidName text = true <->
              forall c, In c (list_ascii_of_string text) -> In c letters).
  { rewrite isValidName_forallb, forallb_forall.
    split; intros H c Hc; apply isalpha_letters; auto. }
  split; [exact H|]. split; [|reflexivity].
  intros c Hc Hclass. apply not_isalpha in Hclass.
  destruct (isValidName text) eqn:E; [|reflexivity].
  rewrite (proj2 (isalpha_letters c)) in Hclass; [discriminate|].
  now apply H.
Qed.

Lemma isValidName_spec_witness :
  isValidName "Bob Smith" = false /\ isValidName "R2D2" = false /\
  isValidName "O'Neil" = false.
Proof.
  split; [|split].
  - apply (proj1 (proj2 (isValidName_spec "Bob Smith")) " "%char); vm_compute; auto 10.
  - apply (proj1 (proj2 (isValidName_spec "R2D2")) "2"%char); vm_compute; auto 10.
  - apply (proj1 (proj2 (isValidName_spec "O'Neil")) "'"%char); vm_compute; auto 10.
Defined.

(** ** Binary64 addition of numbers that are not negative *)

Local Open Scope Z_scope.

Lemma digits2_pos_bounds (m : positive) :
  2 ^ (Zpos (digits2_pos m) - 1) <= Zpos m < 2 ^ Zpos (digits2_pos m).
Proof.
  induction m as [m IH|m IH|]; simpl digits2_pos.
  - rewrite Pos2Z.inj_succ.
    replace (Z.succ (Zpos (digits2_pos m)) - 1) with (Z.succ (Zpos (digits2_pos m) - 1)) by lia.
    rewrite !Z.pow_succ_r by lia. lia.
  - rewrite Pos2Z.inj_succ.
    replace (Z.succ (Zpos (digits2_pos m)) - 1) with (Z.succ (Zpos (digits2_pos m) - 1)) by lia.
    rewrite !Z.pow_succ_r by lia. lia.
  - simpl. lia.
Qed.

Lemma shr_1_m (r : shr_record) :
  0 <= shr_m r -> shr_m (shr_1 r) = shr_m r / 2.
Proof.
  destruct r as [m r s]. simpl. intros Hm.
  destruct m as [|[p|p|]|p]; cbn [shr_m]; try lia; try reflexivity.
  - apply Z.div_unique with 1; lia.
  - apply Z.div_unique with 0; lia.
Qed.

Lemma iter_pos_shr_1_m (p : positive) (r : shr_record) :
  0 <= shr_m r -> shr_m (iter_pos shr_1 p r) = shr_m r / 2 ^ Zpos p.
Proof.
  revert r. induction p as [p IH|p IH|]; intros r Hr; simpl iter_pos.
  - assert (H1 : 0 <= shr_m (shr_1 r)) by (rewrite shr_1_m by assumption; apply Z.div_pos; lia).
    assert (H2 : 0 <= shr_m (iter_pos shr_1 p (shr_1 r))).
    { rewrite IH by assumption. apply Z.div_pos; lia. }
    rewrite IH, IH, shr_1_m by assumption.
    rewrite !Z.div_div by lia. f_equal.
    replace (Z.pos p~1) with (1 + Z.pos p + Z.pos p) by lia.
    rewrite !Z.pow_add_r by lia. ring.
  - assert (H2 : 0 <= shr_m (iter_pos shr_1 p r)).
    { rewrite IH by assumption. apply Z.div_pos; lia. }
    rewrite IH, IH by assumption.
    rewrite !Z.div_div by lia. f_equal.
    replace (Z.pos p~0) with (Z.pos p + Z.pos p) by lia.
    rewrite !Z.pow_add_r by lia. ring.
  - rewrite shr_1_m by assumption. reflexivity.
Qed.

Lemma shr_exact (m e k : Z) :
  0 <= m ->
  shr_m (fst (shr (shr_record_of_loc m loc_Exact) e k)) = m / 2 ^ Z.max k 0 /\
  snd (shr (shr_record_of_loc m loc_Exact) e k) = e + Z.max k 0.
Proof.
  intros Hm. destruct k as [|p|p]; simpl.
  - rewrite Z.div_1_r. lia.
  - rewrite iter_pos_shr_1_m by exact Hm. simpl. rewrite Z.max_l by lia. auto.
  - rewrite Z.div_1_r. lia.
Qed.

Lemma round_nearest_even_ge (m : Z) (l : location) : m <= round_nearest_even m l.
Proof.
  destruct l as [|[]]; simpl; try lia. destruct (Z.even m); lia.
Qed.

Section Rounding.
Variables prec emax : Z.
Hypothesis prec_pos : 0 < prec.

Lemma binary_round_aux_lower (mz : positive) (e1 : Z) (mb : positive) (eb : Z) :
  canonical_mantissa prec emax mb eb = true ->
  e1 <= eb -> Zpos mb * 2 ^ (eb - e1) <= Zpos mz ->
  SFleb (S754_finite false mb eb)
        (binary_round_aux prec emax false (Zpos mz) e1 loc_Exact) = true.
Proof.
  intros Hcan He Hle.
  unfold canonical_mantissa in Hcan. apply Z.eqb_eq in Hcan.
  pose proof (digits2_pos_bounds mb) as Hdb.
  pose proof (digits2_pos_bounds mz) as Hdz.
  set (db := Zpos (digits2_pos mb)) in *.
  set (dz := Zpos (digits2_pos mz)) in *.
  assert (Hpow : 0 < 2 ^ (eb - e1)) by (apply Z.pow_pos_nonneg; lia).
  assert (Hmag : db + eb <= dz + e1).
  { assert (H : 2 ^ (db - 1 + (eb - e1)) < 2 ^ dz).
    { rewrite Z.pow_add_r by lia. nia. }
    apply Z.pow_lt_mono_r_iff in H; lia. }
  unfold binary_round_aux, shr_fexp.
  change (Zdigits2 (Zpos mz)) with dz.
  set (fe := fexp prec emax (dz + e1)).
  assert (Hfe : eb <= fe /\ SpecFloat.emin prec emax <= eb /\
                fe = Z.max (dz + e1 - prec) (SpecFloat.emin prec emax)).
  { subst fe. unfold fexp in *. lia. }
  destruct Hfe as (Hfe1 & Hemin & Hfe2).
  destruct (shr_exact (Zpos mz) e1 (fe - e1) ltac:(lia)) as [Hm1 He1].
  destruct (shr (shr_record_of_loc (Zpos mz) loc_Exact) e1 (fe - e1)) as [r1 e'].
  simpl in Hm1, He1. rewrite Z.max_l in Hm1, He1 by lia.
  assert (He' : e' = fe) by lia. clear He1.
  set (m1 := shr_m r1) in *.
  assert (Hm1pos : 1 <= m1).
  { rewrite Hm1. apply Z.div_le_lower_bound; [apply Z.pow_pos_nonneg; lia|].
    rewrite Z.mul_1_r. rewrite Hfe2.
    destruct (Z.max_spec (dz + e1 - prec) (SpecFloat.emin prec emax)) as [[_ ->]|[_ ->]].
    - apply Z.le_trans with (2 ^ (eb - e1)); [apply Z.pow_le_mono_r; lia|nia].
    - replace (dz + e1 - prec - e1) with (dz - prec) by lia.
      destruct (Z.lt_ge_cases (dz - prec) 0) as [Hn|Hn].
      + rewrite Z.pow_neg_r by exact Hn. lia.
      + apply Z.le_trans with (2 ^ (dz - 1)); [apply Z.pow_le_mono_r; lia|lia]. }
  pose proof (round_nearest_even_ge m1 (loc_of_shr_record r1)) as Hm2.
  set (m2 := round_nearest_even m1 (loc_of_shr_record r1)) in *.
  destruct m2 as [|q|q] eqn:Eq; try lia.
  pose proof (digits2_pos_bounds q) as Hdq.
  change (Zdigits2 (Zpos q)) with (Zpos (digits2_pos q)).
  set (d2 := Zpos (digits2_pos q)) in *.
  set (k2 := fexp prec emax (d2 + e') - e').
  destruct (shr_exact (Zpos q) e' k2 ltac:(lia)) as [Hm3 He3].
  destruct (shr (shr_record_of_loc (Zpos q) loc_Exact) e' k2) as [r3 e''].
  simpl in Hm3, He3.
  assert (Hk2 : Z.max k2 0 = Z.max (d2 - prec) 0).
  { subst k2. unfold fexp. lia. }
  assert (Hm3pos : 1 <= shr_m r3).
  { rewrite Hm3. apply Z.div_le_lower_bound; [apply Z.pow_pos_nonneg; lia|].
    rewrite Z.mul_1_r, Hk2.
    destruct (Z.max_spec (d2 - prec) 0) as [[_ ->]|[_ ->]]; [simpl; lia|].
    apply Z.le_trans with (2 ^ (d2 - 1)); [apply Z.pow_le_mono_r; lia|lia]. }
  destruct (shr_m r3) as [|m3|m3] eqn:E3; try lia.
  destruct (e'' <=? emax - prec); [|reflexivity].
  unfold SFleb. simpl.
  destruct (Z.compare_spec eb e'') as [Heq|Hlt|Hgt]; [|reflexivity|lia].
  fold (Pos.compare mb m3).
  assert (Hmb : (mb <= m3)%positive).
  { assert (Hz : Z.max k2 0 = 0) by lia.
    rewrite Hz, Z.div_1_r in Hm3.
    assert (Hmb1 : Zpos mb <= m1).
    { rewrite Hm1. apply Z.div_le_lower_bound; [apply Z.pow_pos_nonneg; lia|].
      replace (fe - e1) with (eb - e1) by lia. lia. }
    lia. }
  apply Pos.compare_le_iff in Hmb.
  destruct (mb ?= m3)%positive; congruence.
Qed.
End Rounding.

Lemma iter_xO_value (m d : positive) : Zpos (Pos.iter xO m d) = Zpos m * 2 ^ Zpos d.
Proof.
  induction d as [|d IH] using Pos.peano_ind.
  - simpl. lia.
  - rewrite Pos.iter_succ, Pos2Z.inj_xO, IH, Pos2Z.inj_succ, Z.pow_succ_r by lia. ring.
Qed.

Lemma shl_align_spec (m : positive) (e t : Z) :
  snd (shl_align m e t) <= e /\
  Zpos (fst (shl_align m e t)) = Zpos m * 2 ^ (e - snd (shl_align m e t)) /\
  (t <= e -> snd (shl_align m e t) = t).
Proof.
  unfold shl_align. destruct (t - e) as [|d|d] eqn:E; cbn [fst snd].
  - rewrite Z.sub_diag, Z.pow_0_r. lia.
  - rewrite Z.sub_diag, Z.pow_0_r. lia.
  - rewrite iter_xO_value. replace (e - t) with (Zpos d) by lia. lia.
Qed.

Section Addition.
Variables prec emax : Z.
Hypothesis prec_pos : 0 < prec.

Lemma binary_round_aux_nonneg (m e : Z) (l : location) :
  SFnonneg (binary_round_aux prec emax false m e l).
Proof.
  unfold binary_round_aux.
  destruct (shr_fexp prec emax m e l) as [r1 e1].
  destruct (shr_fexp prec emax _ e1 loc_Exact) as [r2 e2].
  destruct (shr_m r2); [reflexivity| |reflexivity].
  destruct (e2 <=? emax - prec); reflexivity.
Qed.

Lemma SFadd_finite_pos (mx : positive) (ex : Z) (my : positive) (ey : Z) :
  exists mz e1,
    SFadd prec emax (S754_finite false mx ex) (S754_finite false my ey)
    = binary_round_aux prec emax false (Zpos mz) e1 loc_Exact /\
    e1 <= ex /\ e1 <= ey /\
    Zpos mz = (Zpos mx * 2 ^ (ex - Z.min ex ey) + Zpos my * 2 ^ (ey - Z.min ex ey))
              * 2 ^ (Z.min ex ey - e1).
Proof.
  unfold SFadd. set (ez := Z.min ex ey).
  destruct (shl_align_spec mx ex ez) as (Hx1 & Hx2 & Hx3).
  destruct (shl_align_spec my ey ez) as (Hy1 & Hy2 & Hy3).
  rewrite Hx3 in Hx2 by lia. rewrite Hy3 in Hy2 by lia.
  set (mx' := fst (shl_align mx ex ez)) in *.
  set (my' := fst (shl_align my ey ez)) in *.
  simpl cond_Zopp. change (Zpos mx' + Zpos my') with (Zpos (mx' + my')).
  unfold binary_normalize, binary_round.
  set (t := fexp prec emax (Zpos (digits2_pos (mx' + my')) + ez)).
  destruct (shl_align_spec (mx' + my') ez t) as (Hz1 & Hz2 & _).
  destruct (shl_align (mx' + my') ez t) as [mz e1]. cbn [fst snd] in Hz1, Hz2.
  exists mz, e1. split; [reflexivity|]. split; [lia|]. split; [lia|].
  rewrite Hz2, Pos2Z.inj_add, Hx2, Hy2. reflexivity.
Qed.

Lemma SFadd_nonneg (x y : spec_float) :
  SFnonneg x -> SFnonneg y -> SFnonneg (SFadd prec emax x y).
Proof.
  destruct x as [sx|[]| |[] mx ex], y as [sy|[]| |[] my ey];
    try discriminate; try reflexivity; intros _ _;
    try (destruct sx; reflexivity); try (destruct sy; reflexivity).
  - destruct sx, sy; reflexivity.
  - destruct (SFadd_finite_pos mx ex my ey) as (mz & e1 & -> & _).
    apply binary_round_aux_nonneg.
Qed.

Lemma SFleb_refl (x : spec_float) : x <> S754_nan -> SFleb x x = true.
Proof.
  destruct x as [s|s| |s m e]; intros H; try reflexivity; [destruct s; reflexivity|congruence|].
  unfold SFleb. simpl. rewrite Z.compare_refl, Pos.compare_cont_refl.
  destruct s; reflexivity.
Qed.

Lemma SFadd_nonneg_ge (x y : spec_float) :
  SpecFloat.valid_binary prec emax x = true -> SFnonneg x -> SFnonneg y ->
  x = S754_nan \/ y = S754_nan \/ SFleb x (SFadd prec emax x y) = true.
Proof.
  intros Hv.
  destruct x as [sx|[]| |[] mx ex], y as [sy|[]| |[] my ey];
    try discriminate; intros _ _; auto;
    try (right; right; reflexivity);
    try (right; right; destruct sx; reflexivity);
    try (right; right; destruct sx, sy; reflexivity).
  - right. right. simpl. apply SFleb_refl. discriminate.
  - right. right.
    destruct (SFadd_finite_pos mx ex my ey) as (mz & e1 & -> & H1 & H2 & H3).
    simpl in Hv. unfold bounded in Hv. apply andb_prop in Hv. destruct Hv as [Hc _].
    apply (binary_round_aux_lower prec emax prec_pos); [exact Hc|exact H1|].
    rewrite H3.
    replace (ex - e1) with ((ex - Z.min ex ey) + (Z.min ex ey - e1)) by lia.
    rewrite Z.pow_add_r by lia.
    assert (0 < 2 ^ (Z.min ex ey - e1)) by (apply Z.pow_pos_nonneg; lia).
    assert (0 <= 2 ^ (ey - Z.min ex ey)) by (apply Z.pow_nonneg; lia).
    nia.
Qed.
End Addition.

Lemma SFleb_trans (x y z : spec_float) :
  SFleb x y = true -> SFleb y z = true -> SFleb x z = true.
Proof.
  unfold SFleb.
  destruct x as [sx|sx| |sx mx ex], y as [sy|sy| |sy my ey], z as [sz|sz| |sz mz ez];
    simpl; try discriminate; try reflexivity;
    repeat match goal with s : bool |- _ => destruct s end;
    simpl; try discriminate; try reflexivity;
    fold (Pos.compare mx my); fold (Pos.compare my mz); fold (Pos.compare mx mz);
    destruct (Z.compare_spec ex ey); destruct (Z.compare_spec ey ez);
    destruct (Z.compare_spec ex ez); try discriminate; try reflexivity; try lia;
    destruct (Pos.compare_spec mx my); destruct (Pos.compare_spec my mz);
    destruct (Pos.compare_spec mx mz); simpl; try discriminate; try reflexivity; try lia.
Qed.

Local Close Scope Z_scope.

Lemma is_nan_spec (x : float) : is_nan x = true <-> Prim2SF x = S754_nan.
Proof.
  unfold is_nan. rewrite eqb_spec. unfold SFeqb.
  destruct (Prim2SF x) as [s|s| |s m e]; simpl.
  - split; discriminate.
  - destruct s; split; discriminate.
  - split; reflexivity.
  - rewrite Z.compare_refl, Pos.compare_cont_refl. destruct s; split; discriminate.
Qed.

Lemma is_nan_false (x : float) : is_nan x = false <-> Prim2SF x <> S754_nan.
Proof.
  rewrite <- is_nan_spec. destruct (is_nan x); split; congruence.
Qed.

Lemma ltb_0_nonneg (x : float) : (x <? 0) = false <-> SFnonneg (Prim2SF x).
Proof. rewrite ltb_spec. reflexivity. Qed.

Lemma prec_pos : (0 < prec)%Z.
Proof. reflexivity. Qed.

Lemma add_nonneg (x y : float) :
  (x <? 0) = false -> (y <? 0) = false -> (x + y <? 0) = false.
Proof.
  rewrite !ltb_0_nonneg, add_spec. apply SFadd_nonneg.
Qed.

Lemma add_not_decreased (x y : float) :
  (x <? 0) = false -> (y <? 0) = false -> not_decreased x (x + y).
Proof.
  rewrite !ltb_0_nonneg. intros Hx Hy. unfold not_decreased.
  rewrite is_nan_spec, leb_spec, add_spec.
  destruct (SFadd_nonneg_ge prec emax prec_pos _ _ (Prim2SF_valid x) Hx Hy)
    as [E|[E|E]]; [left|left|right; exact E].
  - unfold SF64add. rewrite E. reflexivity.
  - unfold SF64add. rewrite E. destruct (Prim2SF x) as [| | |]; reflexivity.
Qed.

Lemma leb_trans (x y z : float) :
  (x <=? y) = true -> (y <=? z) = true -> (x <=? z) = true.
Proof. rewrite !leb_spec. apply SFleb_trans. Qed.

Lemma leb_refl (x : float) : is_nan x = false -> (x <=? x) = true.
Proof. rewrite is_nan_false, leb_spec. apply SFleb_refl. Qed.

Lemma add_le (x y : float) :
  (0 <=? x) = true -> (0 <=? y) = true ->
  (x <=? x + y) = true /\ (0 <=? x + y) = true.
Proof.
  intros Hx Hy.
  assert (H : (x <=? x + y) = true).
  { pose proof (leb_not_ltb _ _ Hx) as Hx'. pose proof (leb_not_ltb _ _ Hy) as Hy'.
    apply leb_not_nan in Hx, Hy. destruct Hx as [_ Hx], Hy as [_ Hy].
    rewrite is_nan_false in Hx, Hy. rewrite ltb_0_nonneg in Hx', Hy'.
    rewrite leb_spec, add_spec.
    destruct (SFadd_nonneg_ge prec emax prec_pos _ _ (Prim2SF_valid x) Hx' Hy')
      as [E|[E|E]]; [contradiction|contradiction|exact E]. }
  split; [exact H|]. exact (leb_trans _ _ _ Hx H).
Qed.


Lemma not_decreased_refl (x : float) : not_decreased x x.
Proof.
  unfold not_decreased. destruct (is_nan x) eqn:E; [now left|right].
  now apply leb_refl.
Qed.

Lemma not_decreased_trans (x y z : float) :
  not_decreased x y -> not_decreased y z -> not_decreased x z.
Proof.
  unfold not_decreased. intros Hxy [Hz|Hyz]; [now left|right].
  destruct (leb_not_nan _ _ Hyz) as [Hy _].
  destruct Hxy as [Hn|Hxy]; [congruence|]. exact (leb_trans _ _ _ Hxy Hyz).
Qed.


(** ** The raw balance over sequences of calls *)

Lemma calculateDeposit_nonneg (s : IDeposit) (a c : float) :
  (a <? 0) = false -> calculateDeposit s a = Ok c -> (c <? 0) = false.
Proof.
  intros Ha. destruct s; simpl;
    unfold FixedDeposit_calculateDeposit, NormalDeposit_calculateDeposit.
  - destruct (1000000 <? a); [discriminate|]. intros [= <-].
    now apply add_nonneg.
  - now intros [= <-].
Qed.

Lemma calculateDeposit_le (s : IDeposit) (a c : float) :
  (0 <=? a) = true -> calculateDeposit s a = Ok c -> (0 <=? c) = true.
Proof.
  intros Ha. destruct s; simpl;
    unfold FixedDeposit_calculateDeposit, NormalDeposit_calculateDeposit.
  - destruct (1000000 <? a); [discriminate|]. intros [= <-].
    now apply add_le.
  - now intros [= <-].
Qed.

Lemma deposit_same_account (a : float) (d : Depositor) :
  same_account d (snd (deposit a d)).
Proof.
  rewrite deposit_unfold. destruct (a <? 0); [repeat split|].
  destruct (calculateDeposit (depositStrategy d) a); repeat split.
Qed.

Lemma deposit_not_decreased (a : float) (d : Depositor) :
  (amount d <? 0) = false ->
  (amount (snd (deposit a d)) <? 0) = false /\
  not_decreased (amount d) (amount (snd (deposit a d))).
Proof.
  intros Hd. rewrite deposit_unfold.
  destruct (a <? 0) eqn:Ha; [split; [exact Hd|apply not_decreased_refl]|].
  destruct (calculateDeposit (depositStrategy d) a) as [c|e] eqn:Hc;
    [|split; [exact Hd|apply not_decreased_refl]].
  pose proof (calculateDeposit_nonneg _ _ _ Ha Hc) as Hc'. simpl.
  split; [now apply add_nonneg|now apply add_not_decreased].
Qed.

Lemma deposit_le (a : float) (d : Depositor) :
  is_nan a = false -> (0 <=? amount d) = true ->
  (0 <=? amount (snd (deposit a d))) = true.
Proof.
  intros Hn Hd. rewrite deposit_unfold.
  destruct (a <? 0) eqn:Ha; [exact Hd|].
  destruct (calculateDeposit (depositStrategy d) a) as [c|e] eqn:Hc; [|exact Hd].
  assert (Ha' : (0 <=? a) = true).
  { destruct (leb_or_ltb 0 a eq_refl Hn) as [H|H]; [exact H|congruence]. }
  simpl. apply add_le; [exact Hd|]. exact (calculateDeposit_le _ _ _ Ha' Hc).
Qed.

Lemma elem_step_refl (a : option float) (ds : list Depositor) :
  Forall2 (elem_step a) ds ds.
Proof. induction ds; constructor; auto. now left. Qed.

Lemma set_nth_step (a : float) (i : nat) (d : Depositor) (ds : list Depositor) :
  nth_error ds i = Some d ->
  Forall2 (elem_step (Some a)) ds (set_nth i (snd (deposit a d)) ds).
Proof.
  revert i. induction ds as [|x ds IH]; intros [|i]; simpl; try discriminate.
  - intros [= ->]. constructor; [right; eauto|apply elem_step_refl].
  - intros H. constructor; [now left|now apply IH].
Qed.

Lemma depositToAccount_loop_step (id : string) (a : float) (ds : list Depositor)
    (out : list output) :
  Forall2 (elem_step (Some a)) ds (snd (fst (depositToAccount_loop id a ds out))).
Proof.
  induction ds as [|x ds IH]; simpl; [constructor|].
  destruct (getID x =? id)%string.
  - destruct (deposit a x) as [[u|[m|]] x'] eqn:E; simpl;
      (constructor; [right; exists a; now rewrite E|apply elem_step_refl]).
  - destruct (depositToAccount_loop id a ds out) as [[r ds'] out']. simpl in *.
    constructor; [now left|exact IH].
Qed.

(** The shape of every call: the elements that were there are untouched or
    went through [deposit], and new elements start at 0. *)
Lemma exec_shape (c : core_call) (b : Bank) :
  exists ds' extra,
    depositors (exec c b) = ds' ++ extra /\
    Forall2 (elem_step (call_amount c)) (depositors b) ds' /\
    Forall (fun d => amount d = 0) extra.
Proof.
  destruct c as [n nm st|i a|id a| |]; simpl.
  - exists (depositors b), [Depositor_new (generateRandomID n) nm 0 st].
    repeat split; [apply elem_step_refl|now constructor].
  - destruct (nth_error (depositors b) i) as [d|] eqn:E; simpl.
    + exists (set_nth i (snd (deposit a d)) (depositors b)), [].
      rewrite app_nil_r. repeat split; [now apply set_nth_step|constructor].
    + exists (depositors b), []. rewrite app_nil_r.
      repeat split; [apply elem_step_refl|constructor].
  - unfold depositToAccount.
    pose proof (depositToAccount_loop_step id a (depositors b) (console b)) as H.
    destruct (depositToAccount_loop id a (depositors b) (console b)) as [[r ds'] out].
    simpl in *. exists ds', []. rewrite app_nil_r. repeat split; [exact H|constructor].
  - exists (depositors b), []. rewrite app_nil_r.
    repeat split; [apply elem_step_refl|constructor].
  - exists (depositors b), []. rewrite app_nil_r. split; [|split; [apply elem_step_refl|constructor]].
    unfold listDepositors. destruct (depositors b) as [|x l] eqn:E; [reflexivity|].
    destruct (listDepositors_loop (x :: l) (console b ++ [cout_list])). reflexivity.
Qed.

Lemma extends_refl (ds : list Depositor) : extends grew ds ds.
Proof.
  induction ds; constructor; auto.
  split; [repeat split|apply not_decreased_refl].
Qed.

Lemma extends_trans (l1 l2 l3 : list Depositor) :
  extends grew l1 l2 -> extends grew l2 l3 -> extends grew l1 l3.
Proof.
  intros H. revert l3. induction H as [|d d' l l' [(H1 & H2 & H3) H4] _ IH]; intros l3 H23.
  - constructor.
  - inversion H23 as [|? d'' ? l'' [(H1' & H2' & H3') H4'] Hl]; subst.
    constructor; [|now apply IH].
    split; [repeat split; congruence|exact (not_decreased_trans _ _ _ H4 H4')].
Qed.

Lemma extends_nth (l l' : list Depositor) (i : nat) (d : Depositor) :
  extends grew l l' -> nth_error l i = Some d ->
  exists d', nth_error l' i = Some d' /\ grew d d'.
Proof.
  intros H. revert i. induction H as [|x x' l l' Hx _ IH]; intros [|i]; simpl;
    try discriminate.
  - intros [= <-]. eauto.
  - apply IH.
Qed.

Lemma exec_not_decreased (c : core_call) (b : Bank) :
  Forall (fun d => (amount d <? 0) = false) (depositors b) ->
  Forall (fun d => (amount d <? 0) = false) (depositors (exec c b)) /\
  extends grew (depositors b) (depositors (exec c b)).
Proof.
  destruct (exec_shape c b) as (ds' & extra & -> & Hstep & Hextra).
  intros Hinv.
  assert (H : Forall (fun d => (amount d <? 0) = false) ds' /\
              extends grew (depositors b) (ds' ++ extra)).
  { clear Hextra. induction Hstep as [|d d' l l' Hd _ IH].
    - split; constructor.
    - inversion Hinv as [|? ? Hd0 Hl0]; subst. destruct (IH Hl0) as [IH1 IH2].
      destruct Hd as [->|(x & _ & ->)].
      + split; constructor; auto. split; [repeat split|apply not_decreased_refl].
      + destruct (deposit_not_decreased x d Hd0) as [H1 H2].
        split; constructor; auto. split; [apply deposit_same_account|exact H2]. }
  destruct H as [H1 H2]. split; [|exact H2].
  apply Forall_app. split; [exact H1|].
  eapply Forall_impl; [|exact Hextra]. intros d ->. reflexivity.
Qed.

Lemma run_not_decreased (cs : list core_call) (b : Bank) :
  Forall (fun d => (amount d <? 0) = false) (depositors b) ->
  Forall (fun d => (amount d <? 0) = false) (depositors (run cs b)) /\
  extends grew (depositors b) (depositors (run cs b)).
Proof.
  revert b. induction cs as [|c cs IH]; intros b Hb; simpl.
  - split; [exact Hb|apply extends_refl].
  - destruct (exec_not_decreased c b Hb) as [H1 H2].
    destruct (IH (exec c b) H1) as [H3 H4].
    split; [exact H3|exact (extends_trans _ _ _ H2 H4)].
Qed.

Lemma exec_le (c : core_call) (b : Bank) :
  (forall a, call_amount c = Some a -> is_nan a = false) ->
  Forall (fun d => (0 <=? amount d) = true) (depositors b) ->
  Forall (fun d => (0 <=? amount d) = true) (depositors (exec c b)).
Proof.
  destruct (exec_shape c b) as (ds' & extra & -> & Hstep & Hextra).
  intros Hc Hinv. apply Forall_app. split.
  - induction Hstep as [|d d' l l' Hd _ IH]; [constructor|].
    inversion Hinv as [|? ? Hd0 Hl0]; subst. constructor; [|now apply IH].
    destruct Hd as [->|(x & Hx & ->)]; [exact Hd0|].
    apply deposit_le; [now apply Hc|exact Hd0].
  - eapply Forall_impl; [|exact Hextra]. intros d ->. reflexivity.
Qed.

Lemma run_le (cs : list core_call) (b : Bank) :
  no_nan cs ->
  Forall (fun d => (0 <=? amount d) = true) (depositors b) ->
  Forall (fun d => (0 <=? amount d) = true) (depositors (run cs b)).
Proof.
  revert b. induction cs as [|c cs IH]; intros b Hcs Hb; simpl; [exact Hb|].
  apply IH.
  - intros c' a Hin. apply Hcs. now right.
  - apply exec_le; [|exact Hb]. intros a. apply Hcs. now left.
Qed.

Lemma run_app (cs1 cs2 : list core_call) (b : Bank) :
  run (cs1 ++ cs2) b = run cs2 (run cs1 b).
Proof. apply fold_left_app. Qed.

(** A NaN passes [validateDepositAmount] (it is not below 0) and turns
    the raw balance into NaN, which is neither below nor above the old
    balance. *)
Lemma deposit_nan_example :
  let d := Depositor_new "PZ100001" "Ann" 5 NormalDeposit in
  let d' := snd (deposit nan d) in
  fst (deposit nan d) = Ok tt /\ is_nan (amount d') = true /\
  (amount d' <? amount d) = false /\ (amount d <=? amount d') = false.
Proof. repeat split; reflexivity. Qed.




Local Open Scope nat_scope.

(** ** [isNumeric] *)

Lemma firstn_plus {A} (a b : nat) (s : list A) :
  firstn (a + b) s = firstn a s ++ firstn b (skipn a s).
Proof.
  revert s. induction a as [|a IH]; intros [|x s]; simpl; try reflexivity.
  - now rewrite firstn_nil.
  - now rewrite IH.
Qed.

Lemma span_length_le (p : ascii -> bool) (s : list ascii) :
  span_length p s <= List.length s.
Proof.
  induction s as [|c s IH]; simpl; [lia|]. destruct (p c); simpl; lia.
Qed.

Lemma span_length_firstn (p : ascii -> bool) (s : list ascii) :
  all_chars p (firstn (span_length p s) s).
Proof.
  induction s as [|c s IH]; simpl; [constructor|].
  destruct (p c) eqn:E; simpl; constructor; auto.
Qed.

Lemma span_length_app (p : ascii -> bool) (t r : list ascii) :
  all_chars p t ->
  match r with [] => True | c :: _ => p c = false end ->
  span_length p (t ++ r) = List.length t.
Proof.
  intros Ht Hr. induction Ht as [|c t Hc _ IH]; simpl.
  - destruct r as [|c r]; [reflexivity|]. simpl. now rewrite Hr.
  - now rewrite Hc, IH.
Qed.

Lemma firstn_length_nonempty {A} (n : nat) (s : list A) :
  n <> 0 -> n <= List.length s -> firstn n s <> [].
Proof.
  destruct n, s; simpl; try lia; discriminate.
Qed.

Lemma skipn_app_length {A} (t r : list A) : skipn (List.length t) (t ++ r) = r.
Proof. induction t; simpl; auto. Qed.

Lemma firstn_app_length {A} (t r : list A) : firstn (List.length t) (t ++ r) = t.
Proof. induction t; simpl; auto. now f_equal. Qed.

(** *** Whatever [strtod] consumes is a floating-point text *)

Lemma mantissa_length_sound (isd : ascii -> bool) (s : list ascii) :
  mantissa_length isd s <> 0 ->
  digits_part isd (firstn (mantissa_length isd s) s) /\
  mantissa_length isd s <= List.length s.
Proof.
  unfold mantissa_length.
  pose proof (span_length_firstn isd s) as Hi.
  pose proof (span_length_le isd s) as Hle.
  set (i := span_length isd s) in *.
  assert (Hlen : List.length (skipn i s) = List.length s - i) by apply length_skipn.
  destruct (skipn i s) as [|c rest] eqn:E.
  - intros Hn. split; [|exact Hle]. constructor; [now apply firstn_length_nonempty|exact Hi].
  - assert (Hdef : c <> "."%char -> i <> 0 ->
                   digits_part isd (firstn i s) /\ i <= List.length s).
    { intros _ Hn. split; [|exact Hle].
      constructor; [now apply firstn_length_nonempty|exact Hi]. }
    destruct (Ascii.eqb_spec c "."%char) as [->|Hc].
    + pose proof (span_length_firstn isd rest) as Hf.
      pose proof (span_length_le isd rest) as Hfle.
      set (f := span_length isd rest) in *.
      destruct (i + f =? 0) eqn:Ez; [intros H; now elim H|]. intros _.
      apply Nat.eqb_neq in Ez. simpl in Hlen.
      split; [|lia].
      replace (i + 1 + f) with (i + (1 + f)) by lia.
      rewrite firstn_plus, E. simpl.
      apply digits_radix; [|exact Hi|exact Hf].
      intros H. apply app_eq_nil in H. destruct H as [H1 H2].
      apply (f_equal (@List.length ascii)) in H1, H2.
      rewrite length_firstn in H1, H2. simpl in H1, H2. lia.
    + destruct c as [[] [] [] [] [] [] [] []]; try (now apply Hdef); now elim Hc.
Qed.

Lemma sign_part_firstn (s : list ascii) :
  sign_part (firstn (match s with c :: _ => if is_sign c then 1 else 0 | [] => 0 end) s).
Proof.
  destruct s as [|c s]; [constructor|].
  destruct (is_sign c) eqn:E; simpl; [now constructor|constructor].
Qed.

Lemma exponent_length_sound (marker : ascii) (s : list ascii) :
  exponent_part marker (firstn (exponent_length marker s) s) /\
  exponent_length marker s <= List.length s.
Proof.
  unfold exponent_length. destruct s as [|c rest]; [split; [constructor|simpl; lia]|].
  destruct (is_letter_ci marker c) eqn:Ec; [|split; [constructor|simpl; lia]].
  pose proof (sign_part_firstn rest) as Hsg.
  set (sg := match rest with c' :: _ => if is_sign c' then 1 else 0 | [] => 0 end) in *.
  pose proof (span_length_firstn isdigit (skipn sg rest)) as Hd.
  pose proof (span_length_le isdigit (skipn sg rest)) as Hdle.
  rewrite length_skipn in Hdle.
  set (d := span_length isdigit (skipn sg rest)) in *.
  destruct (d =? 0) eqn:Ed; [split; [constructor|simpl; lia]|].
  apply Nat.eqb_neq in Ed.
  assert (Hsgle : sg <= List.length rest).
  { subst sg. destruct rest as [|c' r]; simpl; [lia|]. destruct (is_sign c'); lia. }
  split; [|simpl; lia].
  change (1 + sg + d) with (S (sg + d)). simpl. rewrite firstn_plus.
  constructor; auto.
  apply firstn_length_nonempty; [exact Ed|]. rewrite length_skipn. lia.
Qed.

Lemma decimal_length_sound (s : list ascii) :
  decimal_length s <> 0 ->
  float_subject (firstn (decimal_length s) s) /\ decimal_length s <= List.length s.
Proof.
  unfold decimal_length.
  destruct (mantissa_length isdigit s =? 0) eqn:E; [intros H; now elim H|]. intros _.
  apply Nat.eqb_neq in E.
  destruct (mantissa_length_sound isdigit s E) as [Hm Hmle].
  destruct (exponent_length_sound "e" (skipn (mantissa_length isdigit s) s)) as [He Hele].
  rewrite length_skipn in Hele.
  split; [|lia]. rewrite firstn_plus. now constructor.
Qed.

Lemma hex_length_sound (s : list ascii) :
  hex_length s <> 0 ->
  float_subject (firstn (hex_length s) s) /\ hex_length s <= List.length s.
Proof.
  unfold hex_length. destruct s as [|z s]; [intros H; now elim H|].
  destruct (Ascii.eqb_spec z "0"%char) as [->|Hz].
  - destruct s as [|x rest]; [intros H; now elim H|].
    destruct (is_letter_ci "x" x) eqn:Ex; [|intros H; now elim H].
    destruct (mantissa_length isxdigit rest =? 0) eqn:E; [intros H; now elim H|]. intros _.
    apply Nat.eqb_neq in E.
    destruct (mantissa_length_sound isxdigit rest E) as [Hm Hmle].
    destruct (exponent_length_sound "p" (skipn (mantissa_length isxdigit rest) rest))
      as [He Hele].
    rewrite length_skipn in Hele.
    split; [|simpl; lia].
    change (2 + mantissa_length isxdigit rest + ?e)
      with (S (S (mantissa_length isxdigit rest + e))).
    simpl. rewrite firstn_plus. now constructor.
  - destruct z as [[] [] [] [] [] [] [] []]; intros H; now elim H.
Qed.

Lemma prefix_ci_sound (w s : list ascii) :
  prefix_ci w s = true ->
  same_ci w (firstn (List.length w) s) /\ List.length w <= List.length s.
Proof.
  revert s. induction w as [|l w IH]; intros s; simpl.
  - intros _. split; [constructor|lia].
  - destruct s as [|c s]; [discriminate|]. intros H.
    apply andb_prop in H. destruct H as [Hc Hw].
    destruct (IH s Hw) as [H1 H2]. split; [now constructor|simpl; lia].
Qed.

Lemma inf_length_sound (s : list ascii) :
  inf_length s <> 0 ->
  float_subject (firstn (inf_length s) s) /\ inf_length s <= List.length s.
Proof.
  unfold inf_length.
  destruct (prefix_ci word_infinity s) eqn:E1.
  - intros _. destruct (prefix_ci_sound _ _ E1) as [H1 H2].
    split; [now apply subject_infinity|exact H2].
  - destruct (prefix_ci word_inf s) eqn:E2; [|intros H; now elim H].
    intros _. destruct (prefix_ci_sound _ _ E2) as [H1 H2].
    split; [now apply subject_inf|exact H2].
Qed.

Lemma nan_length_unfold (s : list ascii) :
  nan_length s =
  if prefix_ci word_nan s then
    match skipn 3 s with
    | c :: rest =>
        if (c =? "(")%char then
          match skipn (span_length is_nchar rest) rest with
          | c' :: _ =>
              if (c' =? ")")%char then 3 + 1 + span_length is_nchar rest + 1 else 3
          | [] => 3
          end
        else 3
    | [] => 3
    end
  else 0.
Proof.
  unfold nan_length. destruct (prefix_ci word_nan s); [|reflexivity].
  destruct (skipn 3 s) as [|c rest]; [reflexivity|].
  destruct c as [[] [] [] [] [] [] [] []]; try reflexivity.
  simpl Ascii.eqb. cbv iota.
  destruct (skipn (span_length is_nchar rest) rest) as [|c' r]; [reflexivity|].
  destruct c' as [[] [] [] [] [] [] [] []]; reflexivity.
Qed.

Lemma nan_length_sound (s : list ascii) :
  nan_length s <> 0 ->
  float_subject (firstn (nan_length s) s) /\ nan_length s <= List.length s.
Proof.
  rewrite nan_length_unfold.
  destruct (prefix_ci word_nan s) eqn:E; [|intros H; now elim H]. intros _.
  destruct (prefix_ci_sound _ _ E) as [H1 H2]. change (List.length word_nan) with 3 in *.
  assert (Hdef : float_subject (firstn 3 s) /\ 3 <= List.length s).
  { split; [now apply subject_nan|exact H2]. }
  pose proof (length_skipn 3 s) as Hlen.
  destruct (skipn 3 s) as [|c rest] eqn:E3; [exact Hdef|].
  destruct (Ascii.eqb_spec c "("%char) as [->|_]; [|exact Hdef].
  pose proof (span_length_firstn is_nchar rest) as Hq.
  pose proof (length_skipn (span_length is_nchar rest) rest) as Hlen'.
  set (k := span_length is_nchar rest) in *.
  destruct (skipn k rest) as [|c' r] eqn:Ek; [exact Hdef|].
  destruct (Ascii.eqb_spec c' ")"%char) as [->|_]; [|exact Hdef].
  simpl in Hlen, Hlen'. split; [|lia].
  replace (3 + 1 + k + 1) with (3 + (1 + (k + 1))) by lia.
  rewrite firstn_plus, E3. simpl firstn at 2.
  rewrite firstn_plus, Ek. simpl firstn at 3.
  now apply subject_nan_chars.
Qed.

Lemma subject_length_sound (s : list ascii) :
  subject_length s <> 0 ->
  float_subject (firstn (subject_length s) s) /\ subject_length s <= List.length s.
Proof.
  unfold subject_length.
  destruct (hex_length s =? 0) eqn:Eh; simpl;
    [|intros _; apply hex_length_sound; now apply Nat.eqb_neq].
  destruct (decimal_length s =? 0) eqn:Ed; simpl;
    [|intros _; apply decimal_length_sound; now apply Nat.eqb_neq].
  destruct (inf_length s =? 0) eqn:Ei; simpl;
    [|intros _; apply inf_length_sound; now apply Nat.eqb_neq].
  apply nan_length_sound.
Qed.

Lemma strtod_end_sound (s : list ascii) :
  strtod_end s <> 0 ->
  float_text (firstn (strtod_end s) s) /\ strtod_end s <= List.length s.
Proof.
  unfold strtod_end.
  pose proof (span_length_firstn isspace s) as Hw.
  pose proof (span_length_le isspace s) as Hwle.
  set (w := span_length isspace s) in *.
  pose proof (length_skipn w s) as Hlen1.
  set (s1 := skipn w s) in *.
  pose proof (sign_part_firstn s1) as Hsg.
  set (sg := match s1 with c :: _ => if is_sign c then 1 else 0 | [] => 0 end) in *.
  assert (Hsgle : sg <= List.length s1).
  { subst sg. destruct s1 as [|c r]; simpl; [lia|]. destruct (is_sign c); lia. }
  pose proof (length_skipn sg s1) as Hlen2.
  destruct (subject_length (skipn sg s1) =? 0) eqn:E; [intros H; now elim H|]. intros _.
  apply Nat.eqb_neq in E.
  destruct (subject_length_sound _ E) as [Hb Hble].
  split; [|lia].
  rewrite <- Nat.add_assoc, firstn_plus. fold s1. rewrite firstn_plus.
  exists (firstn w s), (firstn sg s1), (firstn (subject_length (skipn sg s1)) (skipn sg s1)).
  repeat split; assumption.
Qed.

(** *** A floating-point text followed by NUL is consumed whole *)

Ltac each_char c := destruct c as [[] [] [] [] [] [] [] []].

Lemma exponent_marker_stops (c : ascii) :
  (is_letter_ci "e" c = true -> isdigit c = false /\ c <> "."%char) /\
  (is_letter_ci "p" c = true -> isxdigit c = false /\ c <> "."%char).
Proof. each_char c; vm_compute; repeat split; congruence. Qed.

Lemma digit_no_sign (c : ascii) : isdigit c = true -> is_sign c = false.
Proof. each_char c; vm_compute; congruence. Qed.

Lemma sign_no_space (c : ascii) : is_sign c = true -> isspace c = false.
Proof. each_char c; vm_compute; congruence. Qed.

(** The characters a subject sequence can start with. *)
Lemma subject_start_stops (c : ascii) :
  (isdigit c || (c =? ".")%char || is_letter_ci "i" c || is_letter_ci "n" c)%bool = true ->
  isspace c = false /\ is_sign c = false.
Proof. each_char c; vm_compute; split; congruence. Qed.

(** The characters of a decimal subject sequence, and the NUL after it. *)
Lemma decimal_char_no_x (c : ascii) :
  (isdigit c || (c =? ".")%char || is_letter_ci "e" c || is_sign c || (c =? NUL)%char)%bool
  = true ->
  is_letter_ci "x" c = false.
Proof. each_char c; vm_compute; congruence. Qed.

Lemma letter_i_n (c : ascii) :
  (is_letter_ci "i" c || is_letter_ci "n" c)%bool = true ->
  c <> "0"%char /\ isdigit c = false /\ c <> "."%char /\
  (is_letter_ci "n" c = true -> is_letter_ci "i" c = false).
Proof. each_char c; vm_compute; repeat split; congruence. Qed.

Lemma mantissa_length_unfold (isd : ascii -> bool) (s : list ascii) :
  mantissa_length isd s =
  match skipn (span_length isd s) s with
  | c :: rest =>
      if (c =? ".")%char then
        if span_length isd s + span_length isd rest =? 0 then 0
        else span_length isd s + 1 + span_length isd rest
      else span_length isd s
  | [] => span_length isd s
  end.
Proof.
  unfold mantissa_length. destruct (skipn (span_length isd s) s) as [|c rest]; [reflexivity|].
  each_char c; reflexivity.
Qed.

Lemma digits_part_nonempty (isd : ascii -> bool) (m : list ascii) :
  digits_part isd m -> List.length m <> 0.
Proof.
  intros [i Hi _|i f _ _ _].
  - destruct i; [congruence|discriminate].
  - rewrite length_app. simpl. lia.
Qed.

Lemma mantissa_length_complete (isd : ascii -> bool) (m r : list ascii) :
  isd "."%char = false ->
  digits_part isd m ->
  match r with [] => True | c :: _ => isd c = false /\ c <> "."%char end ->
  mantissa_length isd (m ++ r) = List.length m.
Proof.
  intros Hdot Hm Hr. rewrite mantissa_length_unfold.
  destruct Hm as [i Hne Hi|i f Hne Hi Hf].
  - rewrite (span_length_app isd i r Hi) by (destruct r; tauto).
    rewrite skipn_app_length. destruct r as [|c r]; [reflexivity|].
    destruct Hr as [_ Hc]. apply Ascii.eqb_neq in Hc. now rewrite Hc.
  - rewrite <- app_assoc. simpl.
    rewrite (span_length_app isd i _ Hi) by exact Hdot.
    rewrite skipn_app_length. simpl.
    rewrite (span_length_app isd f r Hf) by (destruct r; tauto).
    rewrite length_app. simpl.
    destruct (List.length i + List.length f =? 0) eqn:E; [|lia].
    apply Nat.eqb_eq in E. exfalso. apply Hne.
    destruct i, f; simpl in E; try lia. reflexivity.
Qed.

Lemma exponent_length_complete (marker : ascii) (e r : list ascii) :
  is_letter_ci marker NUL = false ->
  exponent_part marker e ->
  exponent_length marker (e ++ NUL :: r) = List.length e.
Proof.
  intros Hnul [|c sg d Hc Hsg Hne Hd]; simpl.
  - now rewrite Hnul.
  - rewrite Hc. rewrite <- app_assoc.
    assert (Hspan : span_length isdigit (d ++ NUL :: r) = List.length d).
    { now apply span_length_app. }
    assert (Hd0 : List.length d <> 0) by (destruct d; [congruence|discriminate]).
    destruct Hsg as [|c' Hc'].
    + simpl. destruct d as [|c0 d]; [congruence|].
      inversion Hd as [|? ? Hc0 _]; subst. cbn [app] in Hspan |- *. cbv iota.
      rewrite (digit_no_sign c0 Hc0). cbn [skipn].
      rewrite Hspan. reflexivity.
    + simpl. rewrite Hc'. simpl skipn. rewrite Hspan.
      destruct (List.length d =? 0) eqn:E; [apply Nat.eqb_eq in E; lia|].
      reflexivity.
Qed.

Lemma decimal_length_complete (m e r : list ascii) :
  digits_part isdigit m -> exponent_part "e" e ->
  decimal_length ((m ++ e) ++ NUL :: r) = List.length (m ++ e).
Proof.
  intros Hm He. unfold decimal_length. rewrite <- app_assoc.
  rewrite (mantissa_length_complete isdigit m (e ++ NUL :: r) eq_refl Hm).
  - pose proof (digits_part_nonempty _ _ Hm) as Hne.
    destruct (List.length m =? 0) eqn:E; [apply Nat.eqb_eq in E; lia|].
    rewrite skipn_app_length, (exponent_length_complete "e" e r eq_refl He), length_app.
    reflexivity.
  - destruct He as [|c sg d Hc _ _ _]; simpl; [split; [reflexivity|discriminate]|].
    now apply exponent_marker_stops.
Qed.

Lemma hex_length_complete (x : ascii) (m e r : list ascii) :
  is_letter_ci "x" x = true ->
  digits_part isxdigit m -> exponent_part "p" e ->
  hex_length (("0"%char :: x :: m ++ e) ++ NUL :: r) = List.length ("0"%char :: x :: m ++ e).
Proof.
  intros Hx Hm He.
  change (hex_length (("0"%char :: x :: m ++ e) ++ NUL :: r))
    with (if is_letter_ci "x" x then
            if mantissa_length isxdigit ((m ++ e) ++ NUL :: r) =? 0 then 0
            else 2 + mantissa_length isxdigit ((m ++ e) ++ NUL :: r)
                 + exponent_length "p"
                     (skipn (mantissa_length isxdigit ((m ++ e) ++ NUL :: r))
                        ((m ++ e) ++ NUL :: r))
          else 0).
  rewrite Hx, <- app_assoc.
  rewrite (mantissa_length_complete isxdigit m (e ++ NUL :: r) eq_refl Hm).
  - pose proof (digits_part_nonempty _ _ Hm) as Hne.
    destruct (List.length m =? 0) eqn:E; [apply Nat.eqb_eq in E; lia|].
    rewrite skipn_app_length, (exponent_length_complete "p" e r eq_refl He).
    simpl. rewrite length_app. reflexivity.
  - destruct He as [|c sg d Hc _ _ _]; simpl; [split; [reflexivity|discriminate]|].
    now apply exponent_marker_stops.
Qed.

Lemma prefix_ci_complete (w s r : list ascii) :
  same_ci w s -> prefix_ci w (s ++ r) = true /\ List.length s = List.length w.
Proof.
  intros H. induction H as [|l c w s Hc _ [IH1 IH2]]; simpl; [auto|].
  rewrite Hc, IH1, IH2. auto.
Qed.

Lemma same_ci_head (l : ascii) (w s : list ascii) :
  same_ci (l :: w) s -> exists c s', s = c :: s' /\ is_letter_ci l c = true.
Proof. intros H. inversion H; subst. eauto. Qed.

Lemma hex_length_head (s : list ascii) :
  hex_length s <> 0 ->
  exists x rest, s = "0"%char :: x :: rest /\ is_letter_ci "x" x = true.
Proof.
  unfold hex_length. destruct s as [|z s]; [intros H; now elim H|].
  destruct (Ascii.eqb_spec z "0"%char) as [->|Hz].
  - destruct s as [|x rest]; [intros H; now elim H|].
    destruct (is_letter_ci "x" x) eqn:E; [eauto|intros H; now elim H].
  - each_char z; intros H; now elim H.
Qed.

Lemma decimal_length_head (c : ascii) (s : list ascii) :
  isdigit c = false -> c <> "."%char -> decimal_length (c :: s) = 0.
Proof.
  intros Hd Hc. unfold decimal_length. rewrite mantissa_length_unfold. simpl.
  rewrite Hd. simpl. apply Ascii.eqb_neq in Hc. now rewrite Hc.
Qed.

Lemma inf_length_head (c : ascii) (s : list ascii) :
  is_letter_ci "i" c = false -> inf_length (c :: s) = 0.
Proof. intros H. unfold inf_length. simpl. now rewrite H. Qed.

(** A word of [inf], [infinity] or [nan] is no hexadecimal and no decimal
    number. *)
Lemma word_not_number (c : ascii) (s : list ascii) :
  (is_letter_ci "i" c || is_letter_ci "n" c)%bool = true ->
  hex_length (c :: s) = 0 /\ decimal_length (c :: s) = 0.
Proof.
  intros H. apply letter_i_n in H. destruct H as (H0 & Hd & Hdot & _). split.
  - destruct (hex_length (c :: s)) eqn:E; [reflexivity|].
    destruct (hex_length_head (c :: s)) as (x & rest & [= -> _] & _); [lia|congruence].
  - now apply decimal_length_head.
Qed.

Lemma subject_length_word (c : ascii) (s : list ascii) :
  (is_letter_ci "i" c || is_letter_ci "n" c)%bool = true ->
  subject_length (c :: s) =
  if negb (inf_length (c :: s) =? 0) then inf_length (c :: s) else nan_length (c :: s).
Proof.
  intros H. unfold subject_length.
  destruct (word_not_number c s H) as [-> ->]. reflexivity.
Qed.

Lemma decimal_not_hex (m e r : list ascii) :
  digits_part isdigit m -> exponent_part "e" e ->
  hex_length ((m ++ e) ++ NUL :: r) = 0.
Proof.
  intros Hm He.
  assert (Hall : Forall (fun c => (isdigit c || (c =? ".")%char || is_letter_ci "e" c
                                   || is_sign c || (c =? NUL)%char)%bool = true)
                   ((m ++ e) ++ [NUL])).
  { apply Forall_app; split; [apply Forall_app; split|].
    - destruct Hm as [i _ Hi|i f _ Hi Hf].
      + eapply Forall_impl; [|exact Hi]. simpl. intros c ->. reflexivity.
      + apply Forall_app. split; [|constructor; [reflexivity|]].
        * eapply Forall_impl; [|exact Hi]. simpl. intros c ->. reflexivity.
        * eapply Forall_impl; [|exact Hf]. simpl. intros c ->. reflexivity.
    - destruct He as [|c sg d Hc Hsg _ Hd]; constructor.
      + rewrite Hc. now rewrite !orb_true_r.
      + apply Forall_app. split.
        * destruct Hsg as [|c' Hc']; constructor; [|constructor].
          rewrite Hc'. now rewrite !orb_true_r.
        * eapply Forall_impl; [|exact Hd]. simpl. intros c0 ->. reflexivity.
    - constructor; [reflexivity|constructor]. }
  pose proof (digits_part_nonempty _ _ Hm) as Hne.
  destruct (hex_length ((m ++ e) ++ NUL :: r)) eqn:E; [reflexivity|].
  destruct (hex_length_head ((m ++ e) ++ NUL :: r)) as (x & rest & Hs & Hx); [lia|].
  exfalso.
  assert (Hin : In x ((m ++ e) ++ [NUL])).
  { destruct (m ++ e) as [|a [|b t]] eqn:Eme.
    - apply (f_equal (@List.length ascii)) in Eme. rewrite length_app in Eme.
      simpl in Eme. lia.
    - simpl in Hs. injection Hs as _ <- _. simpl. auto.
    - simpl in Hs. injection Hs as _ <- _. simpl. auto. }
  rewrite Forall_forall in Hall. apply Hall in Hin.
  apply decimal_char_no_x in Hin. congruence.
Qed.

Lemma inf_length_complete (s r : list ascii) :
  same_ci word_inf s -> inf_length (s ++ NUL :: r) = List.length s.
Proof.
  intros H. destruct (prefix_ci_complete _ _ (NUL :: r) H) as [H1 H2].
  unfold inf_length. rewrite H1, H2.
  replace (prefix_ci word_infinity (s ++ NUL :: r)) with false; [reflexivity|].
  inversion H as [|? a ? s1 Ha H']; subst. inversion H' as [|? b ? s2 Hb H'']; subst.
  inversion H'' as [|? c ? s3 Hc H''']; subst. inversion H'''; subst.
  simpl. rewrite Ha, Hb, Hc. reflexivity.
Qed.

Lemma infinity_length_complete (s r : list ascii) :
  same_ci word_infinity s -> inf_length (s ++ NUL :: r) = List.length s.
Proof.
  intros H. destruct (prefix_ci_complete _ _ (NUL :: r) H) as [H1 H2].
  unfold inf_length. now rewrite H1, H2.
Qed.

Lemma nan_length_complete (s r : list ascii) :
  same_ci word_nan s -> nan_length (s ++ NUL :: r) = List.length s.
Proof.
  intros H. destruct (prefix_ci_complete _ _ (NUL :: r) H) as [H1 H2].
  rewrite nan_length_unfold, H1.
  change 3 with (List.length word_nan) at 1. rewrite <- H2, skipn_app_length.
  rewrite H2. reflexivity.
Qed.

Lemma nan_chars_length_complete (s q r : list ascii) :
  same_ci word_nan s -> all_chars is_nchar q ->
  nan_length ((s ++ "("%char :: q ++ [")"%char]) ++ NUL :: r)
  = List.length (s ++ "("%char :: q ++ [")"%char]).
Proof.
  intros H Hq. rewrite <- app_assoc.
  destruct (prefix_ci_complete _ _ (("("%char :: q ++ [")"%char]) ++ NUL :: r) H) as [H1 H2].
  rewrite nan_length_unfold, H1.
  change 3 with (List.length word_nan) at 1. rewrite <- H2, skipn_app_length.
  simpl. rewrite <- app_assoc. simpl.
  rewrite (span_length_app is_nchar q _ Hq) by reflexivity.
  rewrite skipn_app_length. simpl.
  rewrite length_app, H2. simpl. rewrite length_app. simpl. lia.
Qed.

Lemma subject_length_complete (b r : list ascii) :
  float_subject b ->
  subject_length (b ++ NUL :: r) = List.length b /\ List.length b <> 0.
Proof.
  intros [m e Hm He|x m e Hx Hm He|s H|s H|s H|s q H Hq].
  - pose proof (digits_part_nonempty _ _ Hm) as Hne.
    assert (Hlen : List.length (m ++ e) <> 0) by (rewrite length_app; lia).
    split; [|exact Hlen]. unfold subject_length.
    rewrite (decimal_not_hex m e r Hm He), (decimal_length_complete m e r Hm He).
    simpl. destruct (List.length (m ++ e)); [congruence|reflexivity].
  - split; [|discriminate]. unfold subject_length.
    rewrite (hex_length_complete x m e r Hx Hm He). reflexivity.
  - destruct (same_ci_head _ _ _ H) as (c & s' & -> & Hc).
    split; [|discriminate]. simpl app.
    rewrite subject_length_word by (now rewrite Hc).
    change (c :: s' ++ NUL :: r) with ((c :: s') ++ NUL :: r).
    rewrite (inf_length_complete _ r H). reflexivity.
  - destruct (same_ci_head _ _ _ H) as (c & s' & -> & Hc).
    split; [|discriminate]. simpl app.
    rewrite subject_length_word by (now rewrite Hc).
    change (c :: s' ++ NUL :: r) with ((c :: s') ++ NUL :: r).
    rewrite (infinity_length_complete _ r H). reflexivity.
  - destruct (same_ci_head _ _ _ H) as (c & s' & -> & Hc).
    split; [|discriminate]. simpl app.
    rewrite subject_length_word by (rewrite Hc; apply orb_true_r).
    rewrite inf_length_head by (apply letter_i_n; [rewrite Hc; apply orb_true_r|exact Hc]).
    change (c :: s' ++ NUL :: r) with ((c :: s') ++ NUL :: r).
    rewrite (nan_length_complete _ r H). reflexivity.
  - destruct (same_ci_head _ _ _ H) as (c & s' & -> & Hc).
    split; [|discriminate].
    rewrite <- (nan_chars_length_complete _ q r H Hq).
    simpl app.
    rewrite subject_length_word by (rewrite Hc; apply orb_true_r).
    rewrite inf_length_head by (apply letter_i_n; [rewrite Hc; apply orb_true_r|exact Hc]).
    reflexivity.
Qed.

Lemma float_subject_head (b : list ascii) :
  float_subject b ->
  exists c b', b = c :: b' /\
    (isdigit c || (c =? ".")%char || is_letter_ci "i" c || is_letter_ci "n" c)%bool = true.
Proof.
  intros [m e Hm He|x m e Hx Hm He|s H|s H|s H|s q H Hq].
  - destruct Hm as [[|c i] Hne Hi|[|c i] f Hne Hi Hf]; try congruence; simpl.
    + inversion Hi as [|? ? Hc _]; subst. exists c, (i ++ e). now rewrite Hc.
    + exists "."%char, (f ++ e). auto.
    + inversion Hi as [|? ? Hc _]; subst. exists c, ((i ++ "."%char :: f) ++ e).
      now rewrite Hc.
  - eexists _, _. split; reflexivity.
  - destruct (same_ci_head _ _ _ H) as (c & s' & -> & Hc).
    exists c, s'. rewrite Hc, !orb_true_r. auto.
  - destruct (same_ci_head _ _ _ H) as (c & s' & -> & Hc).
    exists c, s'. rewrite Hc, !orb_true_r. auto.
  - destruct (same_ci_head _ _ _ H) as (c & s' & -> & Hc).
    exists c, s'. rewrite Hc, !orb_true_r. auto.
  - destruct (same_ci_head _ _ _ H) as (c & s' & -> & Hc).
    exists c, (s' ++ "("%char :: q ++ [")"%char]). rewrite Hc, !orb_true_r. auto.
Qed.

Lemma strtod_end_complete (t r : list ascii) :
  float_text t ->
  strtod_end (t ++ NUL :: r) = List.length t /\ List.length t <> 0.
Proof.
  intros (w & sg & b & -> & Hw & Hsg & Hb).
  destruct (subject_length_complete b r Hb) as [Hlen Hne].
  destruct (float_subject_head b Hb) as (c & b' & Eb & Hc).
  apply subject_start_stops in Hc. destruct Hc as [Hc1 Hc2].
  rewrite !length_app. split; [|lia].
  unfold strtod_end. rewrite <- !app_assoc.
  assert (Hspan : span_length isspace (w ++ sg ++ b ++ NUL :: r) = List.length w).
  { apply span_length_app; [exact Hw|].
    destruct Hsg as [|c' Hc']; simpl; [subst b; exact Hc1|now apply sign_no_space]. }
  rewrite Hspan, skipn_app_length.
  destruct Hsg as [|c' Hc']; simpl app.
  - assert (Hsign : match b ++ NUL :: r with
                     | [] => 0
                     | c0 :: _ => if is_sign c0 then 1 else 0
                     end = 0) by (rewrite Eb; simpl; now rewrite Hc2).
    rewrite Hsign. cbn [skipn]. rewrite Hlen.
    destruct (List.length b =? 0) eqn:E; [apply Nat.eqb_eq in E; lia|].
    simpl. lia.
  - cbv iota. rewrite Hc'. cbn [skipn].
    rewrite Hlen. destruct (List.length b =? 0) eqn:E; [apply Nat.eqb_eq in E; lia|].
    simpl. lia.
Qed.

(** *** [isNumeric] and the texts of floating-point numbers *)

Lemma all_chars_no_NUL (p : ascii -> bool) (s : list ascii) :
  p NUL = false -> all_chars p s -> ~ In NUL s.
Proof.
  intros Hp Hs Hin. unfold all_chars in Hs. rewrite Forall_forall in Hs.
  apply Hs in Hin. congruence.
Qed.

Lemma same_ci_no_NUL (w s : list ascii) :
  Forall (fun l => is_letter_ci l NUL = false) w -> same_ci w s -> ~ In NUL s.
Proof.
  intros Hw H. induction H as [|l c w s Hc _ IH]; [intros []|].
  inversion Hw as [|? ? Hl Hw']; subst. intros [-> | Hin]; [congruence|now apply IH].
Qed.

Lemma word_no_NUL (w : list ascii) :
  w = word_inf \/ w = word_infinity \/ w = word_nan ->
  Forall (fun l => is_letter_ci l NUL = false) w.
Proof. intros [-> | [-> | ->]]; repeat constructor. Qed.

Lemma digits_part_no_NUL (isd : ascii -> bool) (m : list ascii) :
  isd NUL = false -> digits_part isd m -> ~ In NUL m.
Proof.
  intros Hp [i _ Hi|i f _ Hi Hf]; [now apply (all_chars_no_NUL isd)|].
  intros Hin. apply in_app_or in Hin. destruct Hin as [Hin|[Hin|Hin]].
  - now apply (all_chars_no_NUL isd i).
  - discriminate Hin.
  - now apply (all_chars_no_NUL isd f).
Qed.

Lemma sign_part_no_NUL (sg : list ascii) : sign_part sg -> ~ In NUL sg.
Proof.
  intros [|c Hc]; [intros []|]. intros [-> | []]. discriminate Hc.
Qed.

Lemma exponent_part_no_NUL (marker : ascii) (e : list ascii) :
  is_letter_ci marker NUL = false -> exponent_part marker e -> ~ In NUL e.
Proof.
  intros Hm [|c sg d Hc Hsg _ Hd]; [intros []|].
  intros [-> | Hin]; [congruence|].
  apply in_app_or in Hin. destruct Hin as [Hin|Hin].
  - now apply (sign_part_no_NUL sg).
  - now apply (all_chars_no_NUL isdigit d).
Qed.

Lemma float_subject_no_NUL (b : list ascii) : float_subject b -> ~ In NUL b.
Proof.
  intros [m e Hm He|x m e Hx Hm He|s H|s H|s H|s q H Hq] Hin.
  - apply in_app_or in Hin. destruct Hin as [Hin|Hin].
    + now apply (digits_part_no_NUL isdigit m).
    + now apply (exponent_part_no_NUL "e" e).
  - destruct Hin as [Hin | [-> | Hin]]; [discriminate Hin|discriminate Hx|].
    apply in_app_or in Hin. destruct Hin as [Hin|Hin].
    + now apply (digits_part_no_NUL isxdigit m).
    + now apply (exponent_part_no_NUL "p" e).
  - apply (same_ci_no_NUL word_inf s); auto. apply word_no_NUL. auto.
  - apply (same_ci_no_NUL word_infinity s); auto. apply word_no_NUL. auto.
  - apply (same_ci_no_NUL word_nan s); auto. apply word_no_NUL. auto.
  - apply in_app_or in Hin. destruct Hin as [Hin|[Hin|Hin]].
    + apply (same_ci_no_NUL word_nan s); auto. apply word_no_NUL. auto.
    + discriminate Hin.
    + apply in_app_or in Hin. destruct Hin as [Hin|[Hin|[]]]; [|discriminate Hin].
      now apply (all_chars_no_NUL is_nchar q).
Qed.

Lemma float_text_no_NUL (t : list ascii) : float_text t -> ~ In NUL t.
Proof.
  intros (w & sg & b & -> & Hw & Hsg & Hb) Hin.
  apply in_app_or in Hin. destruct Hin as [Hin|Hin].
  - now apply (all_chars_no_NUL isspace w).
  - apply in_app_or in Hin. destruct Hin as [Hin|Hin].
    + now apply (sign_part_no_NUL sg).
    + now apply (float_subject_no_NUL b).
Qed.

Lemma c_string_split (s : list ascii) :
  exists r, s ++ [NUL] = c_string s ++ NUL :: r.
Proof.
  induction s as [|c s [r IH]]; simpl; [now exists []|].
  destruct (Ascii.eqb_spec c NUL) as [->|Hc].
  - now exists (s ++ [NUL]).
  - exists r. simpl. now rewrite IH.
Qed.

Lemma c_string_no_NUL (s : list ascii) : ~ In NUL (c_string s).
Proof.
  induction s as [|c s IH]; simpl; [intros []|].
  destruct (Ascii.eqb_spec c NUL) as [->|Hc]; [intros []|].
  intros [E|Hin]; [congruence|now apply IH].
Qed.

Lemma c_string_id (s : list ascii) : ~ In NUL s -> c_string s = s.
Proof.
  induction s as [|c s IH]; simpl; [reflexivity|]. intros H.
  destruct (Ascii.eqb_spec c NUL) as [->|Hc]; [exfalso; apply H; now left|].
  f_equal. apply IH. intros Hin. apply H. now right.
Qed.

(** Where the buffer has its first NUL. *)
Lemma nth_NUL (t r : list ascii) (n : nat) :
  ~ In NUL t -> ~ In NUL (firstn n (t ++ NUL :: r)) ->
  nth n (t ++ NUL :: r) NUL = NUL -> n = List.length t.
Proof.
  intros Ht Hf Hn.
  destruct (Nat.lt_trichotomy n (List.length t)) as [Hlt|[Heq|Hgt]]; [|exact Heq|].
  - exfalso. apply Ht. rewrite app_nth1 in Hn by exact Hlt.
    rewrite <- Hn. now apply nth_In.
  - exfalso. apply Hf.
    replace n with (List.length t + S (n - List.length t - 1)) by lia.
    rewrite firstn_plus, firstn_app_length, skipn_app_length. simpl.
    apply in_or_app. right. now left.
Qed.

(** [isNumeric] is true exactly when the C string held by the text (the
    text itself when it has no NUL) is a floating-point text. *)
Lemma isNumeric_float_text (str : string) :
  isNumeric str = true <-> float_text (c_string (list_ascii_of_string str)).
Proof.
  unfold isNumeric, c_str.
  destruct (c_string_split (list_ascii_of_string str)) as [r ->].
  pose proof (c_string_no_NUL (list_ascii_of_string str)) as Hno.
  set (t := c_string (list_ascii_of_string str)) in *.
  split.
  - intros H. apply andb_prop in H. destruct H as [H1 H2].
    apply negb_true_iff, Nat.eqb_neq in H1. apply Ascii.eqb_eq in H2.
    destruct (strtod_end_sound _ H1) as [Hft _].
    pose proof (float_text_no_NUL _ Hft) as Hf.
    rewrite (nth_NUL t r _ Hno Hf H2), firstn_app_length in Hft. exact Hft.
  - intros H. destruct (strtod_end_complete t r H) as [-> Hne].
    apply Nat.eqb_neq in Hne. rewrite Hne. simpl.
    rewrite app_nth2, Nat.sub_diag by lia. reflexivity.
Qed.

(** For a text without NUL, [isNumeric] is true exactly when the whole
    text is a floating-point text: optional white space, an optional sign
    and a decimal or hexadecimal number, [inf], [infinity] or [nan], with
    nothing after it. *)
Lemma isNumeric_no_NUL (str : string) :
  ~ In NUL (list_ascii_of_string str) ->
  (isNumeric str = true <-> float_text (list_ascii_of_string str)).
Proof.
  intros H. rewrite isNumeric_float_text, (c_string_id _ H). reflexivity.
Qed.

Lemma isNumeric_examples :
  isNumeric "12.5" = true /\ isNumeric "12.5a" = false /\ isNumeric "" = false /\
  isNumeric " -0x1.8p+3" = true /\ isNumeric "1e" = false /\
  isNumeric "nan(ab_1)" = true /\ isNumeric "Infinity" = true.
Proof. repeat split; reflexivity. Qed.

(** C8, at the input where the code departs from it.  [isNumeric] is
    true exactly for the floating-point texts among the texts without a
    NUL character ([isNumeric_no_NUL], [isNumeric_examples]).  The text of
    the three characters '1', NUL, 'a' is not a floating-point text, yet
    [isNumeric] returns true on it: [c_str()] ends at the first NUL for
    [strtod] and for the test of [*end] alike, so only the C string in
    front of the NUL is looked at, against the comment of the source that
    the whole string is a number. *)
Theorem isNumeric_embedded_NUL :
  let text := String "1" (String NUL (String "a" EmptyString)) in
  isNumeric text = true /\
  ~ float_text (list_ascii_of_string text) /\
  float_text (c_string (list_ascii_of_string text)).
Proof.
  intros text. split; [reflexivity|]. split.
  - intros H. apply float_text_no_NUL in H. apply H. simpl. auto.
  - apply isNumeric_float_text. reflexivity.
Qed.

Local Close Scope nat_scope.

(** * Further properties of the code *)

From Stdlib Require Import NArith.
From Stdlib Require DecimalFacts DecimalPos DecimalZ.

Lemma isNumeric_no_NUL_witness :
  isNumeric "12.5" = true <-> float_text (list_ascii_of_string "12.5").
Proof.
  apply isNumeric_no_NUL. simpl. intuition discriminate.
Defined.

Local Open Scope nat_scope.

(** ** [generateRandomID] *)

Lemma string_of_uint_digits (d : Decimal.uint) :
  String.length (NilEmpty.string_of_uint d) = Decimal.nb_digits d /\
  Forall (fun c => isdigit c = true) (list_ascii_of_string (NilEmpty.string_of_uint d)).
Proof.
  induction d as [|d [IH1 IH2]|d [IH1 IH2]|d [IH1 IH2]|d [IH1 IH2]|d [IH1 IH2]
                  |d [IH1 IH2]|d [IH1 IH2]|d [IH1 IH2]|d [IH1 IH2]|d [IH1 IH2]];
    simpl; (split; [congruence|]); constructor; auto.
Qed.

Lemma usize_nb_digits (d : Decimal.uint) :
  DecimalPos.Unsigned.usize d = N.of_nat (Decimal.nb_digits d).
Proof.
  induction d; cbn [DecimalPos.Unsigned.usize Decimal.nb_digits];
    rewrite ?Nat2N.inj_succ, ?IHd; reflexivity.
Qed.

Lemma of_lu_bound (d : Decimal.uint) :
  (DecimalPos.Unsigned.of_lu d < 10 ^ DecimalPos.Unsigned.usize d)%N.
Proof.
  induction d; cbn [DecimalPos.Unsigned.of_lu DecimalPos.Unsigned.usize];
    rewrite ?N.pow_succ_r'; [reflexivity|..];
    set (P := (10 ^ DecimalPos.Unsigned.usize d)%N) in *; lia.
Qed.

(** The number of decimal digits of a positive number, by its size. *)
Lemma to_uint_size (p : positive) :
  (10 ^ N.of_nat (Decimal.nb_digits (Pos.to_uint p) - 1) <= Npos p
   < 10 ^ N.of_nat (Decimal.nb_digits (Pos.to_uint p)))%N.
Proof.
  pose proof (DecimalPos.Unsigned.of_to p) as Hof.
  pose proof (DecimalPos.Unsigned.to_of (Pos.to_uint p)) as Hto.
  rewrite Hof in Hto. simpl N.to_uint in Hto.
  pose proof (DecimalPos.Unsigned.to_uint_nonzero p) as Hnz.
  pose proof (DecimalPos.Unsigned.to_uint_nonnil p) as Hnn.
  change (N.to_uint (N.pos p)) with (Pos.to_uint p) in Hto.
  remember (Pos.to_uint p) as d eqn:Ed. clear Ed.
  assert (Hhead : forall d', d <> Decimal.D0 d').
  { intros d' E. subst d. unfold Decimal.unorm in Hto. cbn [Decimal.nzhead] in Hto.
    pose proof (DecimalFacts.nb_digits_nzhead d') as Hle.
    destruct (Decimal.nzhead d') eqn:En; [now apply Hnz|..];
      rewrite <- Hto in Hle; simpl in Hle; lia. }
  split.
  - destruct d as [|d'|d'|d'|d'|d'|d'|d'|d'|d'|d']; try congruence;
      try (exfalso; now apply (Hhead d'));
      simpl Pos.of_uint in Hof; injection Hof as Hof;
      apply (f_equal Npos) in Hof; rewrite DecimalPos.Unsigned.of_uint_acc_rev in Hof;
      rewrite <- Hof, usize_nb_digits; cbn [Decimal.nb_digits];
      replace (S (Decimal.nb_digits d') - 1)%nat with (Decimal.nb_digits d') by lia;
      set (P := (10 ^ N.of_nat (Decimal.nb_digits d'))%N); lia.
  - rewrite <- Hof, DecimalPos.Unsigned.of_uint_alt, <- DecimalFacts.nb_digits_rev, <- usize_nb_digits.
    apply of_lu_bound.
Qed.

(** X1. For every number that the generator's distribution can draw,
    100000 to 999999, the identifier is ["PZ"] followed by exactly six
    decimal digits: eight characters in all. *)
Theorem generateRandomID_format (n : Z) :
  (100000 <= n <= 999999)%Z ->
  exists digits,
    generateRandomID n = ("PZ" ++ digits)%string /\
    String.length digits = 6 /\
    Forall (fun c => isdigit c = true) (list_ascii_of_string digits) /\
    String.length (generateRandomID n) = 8.
Proof.
  intros Hn. destruct n as [|p|p]; try lia.
  unfold generateRandomID. simpl Z.to_int.
  pose proof (DecimalPos.Unsigned.to_uint_nonnil p) as Hnn.
  pose proof (to_uint_size p) as Hsize.
  assert (E : NilZero.string_of_int (Decimal.Pos (Pos.to_uint p))
              = NilEmpty.string_of_uint (Pos.to_uint p)).
  { simpl. destruct (Pos.to_uint p); [congruence|reflexivity..]. }
  rewrite E. destruct (string_of_uint_digits (Pos.to_uint p)) as [Hlen Hdig].
  assert (Hk : Decimal.nb_digits (Pos.to_uint p) = 6).
  { set (k := Decimal.nb_digits (Pos.to_uint p)) in *.
    destruct (Nat.lt_trichotomy k 6) as [Hlt|[Heq|Hgt]]; [|exact Heq|]; exfalso.
    - assert (H : (10 ^ N.of_nat k <= 10 ^ 5)%N) by (apply N.pow_le_mono_r; lia).
      change (10 ^ 5)%N with 100000%N in H. lia.
    - assert (H : (10 ^ 6 <= 10 ^ N.of_nat (k - 1))%N) by (apply N.pow_le_mono_r; lia).
      change (10 ^ 6)%N with 1000000%N in H. lia. }
  exists (NilEmpty.string_of_uint (Pos.to_uint p)).
  split; [reflexivity|]. split; [congruence|]. split; [exact Hdig|].
  simpl. congruence.
Qed.

Lemma generateRandomID_format_witness :
  exists digits,
    generateRandomID 100000 = ("PZ" ++ digits)%string /\
    String.length digits = 6 /\
    Forall (fun c => isdigit c = true) (list_ascii_of_string digits) /\
    String.length (generateRandomID 100000) = 8.
Proof. apply (generateRandomID_format 100000). lia. Defined.

(** X2. Two draws give the same identifier exactly when they are the same
    number: the identifier determines the number drawn. *)
Theorem generateRandomID_inj (n m : Z) :
  generateRandomID n = generateRandomID m <-> n = m.
Proof.
  split; [|now intros ->].
  unfold generateRandomID. intros H. injection H as H.
  apply DecimalZ.to_int_inj.
  assert (Hok : forall z, NilZero.int_of_string (NilZero.string_of_int (Z.to_int z))
                          = Some (Z.to_int z)).
  { intros z. apply NilZero.isi; destruct z as [|p|p]; simpl; try discriminate;
      intros [= E]; now apply (DecimalPos.Unsigned.to_uint_nonnil p). }
  apply (f_equal NilZero.int_of_string) in H. rewrite !Hok in H. now injection H.
Qed.

Local Close Scope nat_scope.

(** ** Reported balances, totals and listings *)

Lemma getDepositAmount_Throw (d : Depositor) (e : exn) :
  getDepositAmount d = Throw e <->
  over_limit d /\ e = InvalidInputException FixedDeposit_message.
Proof.
  unfold getDepositAmount, over_limit. split.
  - intros H. apply calculateDeposit_Throw in H. tauto.
  - intros [[Hs Hlt] ->]. rewrite Hs. simpl. unfold FixedDeposit_calculateDeposit.
    now rewrite Hlt.
Qed.

Lemma getDepositAmount_cases (d : Depositor) :
  (exists x, getDepositAmount d = Ok x /\ ~ over_limit d) \/
  (getDepositAmount d = Throw (InvalidInputException FixedDeposit_message) /\ over_limit d).
Proof.
  destruct (getDepositAmount d) as [x|e] eqn:E.
  - left. exists x. split; [reflexivity|]. intros H.
    assert (H' : getDepositAmount d = Throw (InvalidInputException FixedDeposit_message))
      by (apply getDepositAmount_Throw; auto).
    congruence.
  - right. apply getDepositAmount_Throw in E. destruct E as [H ->]. auto.
Qed.

Lemma calculateTotalDeposits_loop_cases (ds : list Depositor) (total : float) :
  (exists t, calculateTotalDeposits_loop ds total = Ok t /\
             forall d, In d ds -> ~ over_limit d) \/
  (calculateTotalDeposits_loop ds total
   = Throw (InvalidInputException FixedDeposit_message) /\
   exists d, In d ds /\ over_limit d).
Proof.
  revert total. induction ds as [|d ds IH]; intros total; simpl.
  - left. exists total. split; [reflexivity|]. intros d [].
  - destruct (getDepositAmount_cases d) as [(x & -> & Hd)|[-> Hd]].
    + destruct (IH (total + x)) as [(t & -> & H)|[-> (d' & Hin & H)]].
      * left. exists t. split; [reflexivity|]. intros d' [<-|Hin]; auto.
      * right. split; [reflexivity|]. exists d'. auto.
    + right. split; [reflexivity|]. exists d. auto.
Qed.

(** X4. [calculateTotalDeposits] throws exactly when some depositor has
    the Fixed strategy and a raw balance above 1,000,000, and what it
    throws is then the amount-too-large exception; on every other bank it
    returns a total. *)
Theorem calculateTotalDeposits_Throw_iff (b : Bank) :
  ((exists e, calculateTotalDeposits b = Throw e) <->
   (exists d, In d (depositors b) /\ over_limit d)) /\
  (forall e, calculateTotalDeposits b = Throw e ->
     e = InvalidInputException FixedDeposit_message) /\
  ((forall d, In d (depositors b) -> ~ over_limit d) ->
   exists t, calculateTotalDeposits b = Ok t).
Proof.
  unfold calculateTotalDeposits.
  destruct (calculateTotalDeposits_loop_cases (depositors b) 0)
    as [(t & -> & H)|[-> (d & Hin & H)]].
  - split; [|split].
    + split; [intros [e He]; discriminate He|].
      intros (d & Hin & Hd). exfalso. exact (H d Hin Hd).
    + discriminate.
    + eauto.
  - split; [|split].
    + split; eauto.
    + now intros e [= <-].
    + intros Hno. exfalso. exact (Hno d Hin H).
Qed.

Lemma calculateTotalDeposits_Throw_iff_witness :
  exists t,
    calculateTotalDeposits
      {| depositors := [Depositor_new "PZ100001" "Ann" 2000000 NormalDeposit;
                        Depositor_new "PZ100002" "Bob" 1000000 FixedDeposit];
         console := [] |} = Ok t.
Proof.
  apply calculateTotalDeposits_Throw_iff. simpl.
  intros d [<-|[<-|[]]] [Hs Hlt]; discriminate.
Defined.

Lemma listDepositors_loop_Ok (ds : list Depositor) (vs : list float)
    (out : list output) :
  map getDepositAmount ds = map Ok vs ->
  listDepositors_loop ds out = (Ok tt, out ++ map report_line (combine ds vs)).
Proof.
  revert vs out. induction ds as [|d ds IH]; intros [|v vs] out; simpl;
    try discriminate.
  - intros _. now rewrite app_nil_r.
  - intros [= Hd Hds]. rewrite Hd, (IH vs _ Hds), <- app_assoc. reflexivity.
Qed.

Lemma listDepositors_loop_Throw (pre : list Depositor) (vs : list float)
    (d : Depositor) (post : list Depositor) (e : exn) (out : list output) :
  map getDepositAmount pre = map Ok vs ->
  getDepositAmount d = Throw e ->
  listDepositors_loop (pre ++ d :: post) out
  = (Throw e, out ++ map report_line (combine pre vs)
                  ++ [cout_line_cut (getID d) (getName d)]).
Proof.
  revert vs out. induction pre as [|x pre IH]; intros [|v vs] out; simpl;
    try discriminate.
  - intros _ ->. reflexivity.
  - intros [= Hx Hpre] Hd. rewrite Hx, (IH vs _ Hpre Hd), <- app_assoc. reflexivity.
Qed.

(** X5. [listDepositors] never changes the depositors.  On an empty bank
    it writes the single line "No depositors were added." and returns.  On
    a bank where every reported balance is computed, it returns after
    writing the heading and one line per depositor, in the order of the
    vector, with the identifier, the name and the reported balance. *)
Theorem listDepositors_spec (b : Bank) :
  depositors (snd (listDepositors b)) = depositors b /\
  (depositors b = [] ->
   listDepositors b
   = (Ok tt, {| depositors := []; console := console b ++ [cout_none] |})) /\
  (forall vs,
     depositors b <> [] ->
     map getDepositAmount (depositors b) = map Ok vs ->
     listDepositors b
     = (Ok tt, {| depositors := depositors b;
                  console := console b ++ cout_list
                             :: map report_line (combine (depositors b) vs) |})).
Proof.
  unfold listDepositors. split; [|split].
  - destruct (depositors b) as [|x l] eqn:E; [reflexivity|].
    destruct (listDepositors_loop (x :: l) (console b ++ [cout_list])). reflexivity.
  - intros ->. reflexivity.
  - intros vs Hne Hvs. destruct (depositors b) as [|x l] eqn:E; [congruence|].
    rewrite (listDepositors_loop_Ok _ vs _ Hvs), <- app_assoc. reflexivity.
Qed.

Lemma listDepositors_spec_witness :
  let ann := Depositor_new "PZ100001" "Ann" 500 NormalDeposit in
  let bob := Depositor_new "PZ100002" "Bob" 300 FixedDeposit in
  listDepositors {| depositors := []; console := [] |}
  = (Ok tt, {| depositors := []; console := [cout_none] |}) /\
  listDepositors {| depositors := [ann; bob]; console := [] |}
  = (Ok tt, {| depositors := [ann; bob];
               console := [cout_list; cout_line "PZ100001" "Ann" 500;
                           cout_line "PZ100002" "Bob" 400] |}).
Proof.
  intros ann bob. split.
  - exact (proj1 (proj2 (listDepositors_spec {| depositors := []; console := [] |}))
             eq_refl).
  - refine (proj2 (proj2 (listDepositors_spec
             {| depositors := [ann; bob]; console := [] |})) [500; 400] _ eq_refl).
    discriminate.
Defined.

Lemma listDepositors_loop_Throw_iff (ds : list Depositor) (out : list output)
    (total : float) (e : exn) :
  fst (listDepositors_loop ds out) = Throw e <->
  calculateTotalDeposits_loop ds total = Throw e.
Proof.
  revert out total. induction ds as [|d ds IH]; intros out total; simpl.
  - split; discriminate.
  - destruct (getDepositAmount d) as [x|e']; [apply IH|].
    simpl. split; intros [= ->]; reflexivity.
Qed.

Lemma listDepositors_fst_Throw (b : Bank) (e : exn) :
  fst (listDepositors b) = Throw e <-> calculateTotalDeposits b = Throw e.
Proof.
  unfold listDepositors, calculateTotalDeposits.
  destruct (depositors b) as [|x l] eqn:E; [split; discriminate|].
  rewrite <- (listDepositors_loop_Throw_iff (x :: l) (console b ++ [cout_list]) 0 e).
  destruct (listDepositors_loop (x :: l) (console b ++ [cout_list])). reflexivity.
Qed.

(** X6. [listDepositors] throws on exactly the banks on which
    [calculateTotalDeposits] throws, and the same exception.  When the
    first depositor whose reported balance throws is [d], the lines of the
    depositors before [d] are written already, and the line of [d] is cut
    off after its identifier and name. *)
Theorem listDepositors_Throw (b : Bank) :
  (forall e, fst (listDepositors b) = Throw e <-> calculateTotalDeposits b = Throw e) /\
  (forall pre vs d post e,
     depositors b = pre ++ d :: post ->
     map getDepositAmount pre = map Ok vs ->
     getDepositAmount d = Throw e ->
     listDepositors b
     = (Throw e,
        {| depositors := depositors b;
           console := console b ++ cout_list :: map report_line (combine pre vs)
                      ++ [cout_line_cut (getID d) (getName d)] |})).
Proof.
  split; [intros e; apply listDepositors_fst_Throw|].
  intros pre vs d post e Hb Hpre Hd. unfold listDepositors. rewrite Hb.
  destruct (pre ++ d :: post) as [|x l] eqn:E; [now destruct pre|].
  rewrite <- E, (listDepositors_loop_Throw pre vs d post e _ Hpre Hd), <- app_assoc.
  reflexivity.
Qed.

Lemma listDepositors_Throw_witness :
  let ann := Depositor_new "PZ100001" "Ann" 500 NormalDeposit in
  let cat := Depositor_new "PZ100003" "Cat" 1000100 FixedDeposit in
  let bob := Depositor_new "PZ100002" "Bob" 300 FixedDeposit in
  listDepositors {| depositors := [ann; cat; bob]; console := [] |}
  = (Throw (InvalidInputException FixedDeposit_message),
     {| depositors := [ann; cat; bob];
        console := [cout_list; cout_line "PZ100001" "Ann" 500;
                    cout_line_cut "PZ100003" "Cat"] |}).
Proof.
  intros ann cat bob.
  exact (proj2 (listDepositors_Throw {| depositors := [ann; cat; bob]; console := [] |})
           [ann] [500] cat [bob] _ eq_refl eq_refl eq_refl).
Defined.

(** ** Adding depositors and depositing *)

(** X7. A depositor just added is found by its identifier: a deposit of an
    amount that is not negative to the identifier that [addDepositor]
    generated returns true, whatever the bank held before (it reaches the
    first depositor with that identifier). *)
Theorem addDepositor_then_found (b : Bank) (n : Z) (nm : string) (s : IDeposit)
    (a : float) :
  (a <? 0) = false ->
  fst (depositToAccount (generateRandomID n) a (snd (addDepositor n nm s b))) = Ok true.
Proof.
  intros Ha. set (b1 := snd (addDepositor n nm s b)).
  assert (Hfound : exists d, In d (depositors b1) /\ getID d = generateRandomID n).
  { exists (Depositor_new (generateRandomID n) nm 0 s). split; [|reflexivity].
    simpl. apply in_or_app. right. now left. }
  apply first_match_found in Hfound. destruct Hfound as [i Hi].
  destruct (first_match_Some _ _ _ Hi) as (pre & d & post & Hb & _ & Hpre & Hd).
  rewrite (depositToAccount_at b1 _ a pre d post Hb Hpre Hd), Ha.
  destruct (calculateDeposit (depositStrategy d) a); reflexivity.
Qed.

Lemma addDepositor_then_found_witness :
  fst (depositToAccount (generateRandomID 100001) 500
         (snd (addDepositor 100001 "Alice" NormalDeposit Bank_new))) = Ok true.
Proof. apply addDepositor_then_found. reflexivity. Defined.

(** X8. The deposit that goes through: when [d] is the first depositor
    with the identifier, the amount is not negative and the strategy of
    [d] credits [credited] for it, [depositToAccount] returns true, the
    raw balance of [d] has grown by [credited], nothing else in the vector
    has changed, and one line reports the deposit. *)
Theorem depositToAccount_credit (b : Bank) (id : string) (a credited : float)
    (pre : list Depositor) (d : Depositor) (post : list Depositor) :
  depositors b = pre ++ d :: post ->
  (forall x, In x pre -> getID x <> id) -> getID d = id ->
  (a <? 0) = false ->
  calculateDeposit (depositStrategy d) a = Ok credited ->
  depositToAccount id a b
  = (Ok true,
     {| depositors := pre ++ add_amount credited d :: post;
        console := console b ++ [cout_deposit a id] |}) /\
  amount (add_amount credited d) = amount d + credited.
Proof.
  intros Hb Hpre Hd Ha Hc. apply first_match_None in Hpre.
  rewrite (depositToAccount_at b id a pre d post Hb Hpre Hd), Ha, Hc. auto.
Qed.

Lemma depositToAccount_credit_witness :
  let ann := Depositor_new "PZ100001" "Ann" 500 NormalDeposit in
  let bob := Depositor_new "PZ100002" "Bob" 300 FixedDeposit in
  depositToAccount "PZ100002" 200 {| depositors := [ann; bob]; console := [] |}
  = (Ok true,
     {| depositors := [ann; add_amount 300 bob];
        console := [cout_deposit 200 "PZ100002"] |}) /\
  amount (add_amount 300 bob) = 300 + 300.
Proof.
  intros ann bob.
  refine (depositToAccount_credit {| depositors := [ann; bob]; console := [] |}
            "PZ100002" 200 300 [ann] bob [] eq_refl _ eq_refl eq_refl eq_refl).
  intros x [<-|[]]. discriminate.
Defined.

Lemma depositToAccount_loop_cons (id : string) (a : float) (x : Depositor)
    (ds : list Depositor) (out : list output) :
  getID x <> id ->
  snd (fst (depositToAccount_loop id a (x :: ds) out))
  = x :: snd (fst (depositToAccount_loop id a ds out)).
Proof.
  intros Hx. simpl. apply String.eqb_neq in Hx. rewrite Hx.
  destruct (depositToAccount_loop id a ds out) as [[r ds'] out']. reflexivity.
Qed.

Lemma depositToAccount_loop_hit (id : string) (a : float) (x : Depositor)
    (ds : list Depositor) (out : list output) :
  getID x = id ->
  snd (fst (depositToAccount_loop id a (x :: ds) out)) = snd (deposit a x) :: ds.
Proof.
  intros Hx. simpl. apply String.eqb_eq in Hx. rewrite Hx.
  destruct (deposit a x) as [[u|[m|]] x']; reflexivity.
Qed.

Lemma depositToAccount_loop_out (id : string) (a : float) (ds : list Depositor)
    (out out' : list output) :
  snd (fst (depositToAccount_loop id a ds out))
  = snd (fst (depositToAccount_loop id a ds out')).
Proof.
  induction ds as [|x ds IH]; simpl; [reflexivity|].
  destruct (getID x =? id)%string.
  - destruct (deposit a x) as [[u|[m|]] x']; reflexivity.
  - destruct (depositToAccount_loop id a ds out) as [[r ds1] o1].
    destruct (depositToAccount_loop id a ds out') as [[r' ds2] o2].
    simpl in *. now rewrite IH.
Qed.

Lemma depositToAccount_loop_commute (id1 id2 : string) (a1 a2 : float)
    (ds : list Depositor) (out : list output) :
  id1 <> id2 ->
  snd (fst (depositToAccount_loop id2 a2
              (snd (fst (depositToAccount_loop id1 a1 ds out))) out))
  = snd (fst (depositToAccount_loop id1 a1
                (snd (fst (depositToAccount_loop id2 a2 ds out))) out)).
Proof.
  intros Hne. induction ds as [|x ds IH]; [reflexivity|].
  pose proof (deposit_same_account a1 x) as (H1 & _).
  pose proof (deposit_same_account a2 x) as (H2 & _).
  destruct (String.eqb_spec (getID x) id1) as [E1|E1];
    destruct (String.eqb_spec (getID x) id2) as [E2|E2]; try congruence.
  - rewrite (depositToAccount_loop_hit id1 a1 x ds out E1).
    rewrite (depositToAccount_loop_cons id2 a2 x ds out E2).
    rewrite (depositToAccount_loop_cons id2 a2 (snd (deposit a1 x)) ds out)
      by congruence.
    rewrite (depositToAccount_loop_hit id1 a1 x _ out E1).
    reflexivity.
  - rewrite (depositToAccount_loop_hit id2 a2 x ds out E2).
    rewrite (depositToAccount_loop_cons id1 a1 x ds out E1).
    rewrite (depositToAccount_loop_cons id1 a1 (snd (deposit a2 x)) ds out)
      by congruence.
    rewrite (depositToAccount_loop_hit id2 a2 x _ out E2).
    reflexivity.
  - rewrite (depositToAccount_loop_cons id1 a1 x ds out E1).
    rewrite (depositToAccount_loop_cons id2 a2 x ds out E2).
    rewrite (depositToAccount_loop_cons id2 a2 x _ out E2).
    rewrite (depositToAccount_loop_cons id1 a1 x _ out E1). now rewrite IH.
Qed.

Lemma depositToAccount_depositors (id : string) (a : float) (b : Bank) :
  depositors (snd (depositToAccount id a b))
  = snd (fst (depositToAccount_loop id a (depositors b) [])).
Proof.
  unfold depositToAccount.
  rewrite (depositToAccount_loop_out id a (depositors b) [] (console b)).
  destruct (depositToAccount_loop id a (depositors b) (console b)) as [[r ds] out].
  reflexivity.
Qed.

(** X9. Deposits to two different identifiers commute: whichever of the
    two calls runs first, the depositors and their raw balances are the
    same afterwards. *)
Theorem depositToAccount_commute (b : Bank) (id1 id2 : string) (a1 a2 : float) :
  id1 <> id2 ->
  depositors (snd (depositToAccount id2 a2 (snd (depositToAccount id1 a1 b))))
  = depositors (snd (depositToAccount id1 a1 (snd (depositToAccount id2 a2 b)))).
Proof.
  intros Hne. rewrite !depositToAccount_depositors.
  now apply depositToAccount_loop_commute.
Qed.

Lemma depositToAccount_commute_witness :
  let ann := Depositor_new "PZ100001" "Ann" 500 NormalDeposit in
  let bob := Depositor_new "PZ100002" "Bob" 300 FixedDeposit in
  let b := {| depositors := [ann; bob]; console := [] |} in
  depositors (snd (depositToAccount "PZ100002" 200 (snd (depositToAccount "PZ100001" 10 b))))
  = depositors (snd (depositToAccount "PZ100001" 10 (snd (depositToAccount "PZ100002" 200 b)))).
Proof.
  intros ann bob b. apply depositToAccount_commute. discriminate.
Defined.

(** ** The registry over sequences of calls *)

Lemma exec_length (c : core_call) (b : Bank) :
  List.length (depositors (exec c b))
  = (List.length (depositors b) + count_addDepositor [c])%nat.
Proof.
  destruct c as [n nm st|i a|id a| |]; simpl.
  - rewrite length_app. reflexivity.
  - destruct (nth_error (depositors b) i) as [d|] eqn:E; simpl; [|lia].
    rewrite <- (Forall2_length (set_nth_step a i d (depositors b) E)). lia.
  - rewrite depositToAccount_depositors.
    rewrite <- (Forall2_length (depositToAccount_loop_step id a (depositors b) [])). lia.
  - lia.
  - unfold listDepositors. destruct (depositors b) as [|x l] eqn:E; [simpl; lia|].
    destruct (listDepositors_loop (x :: l) (console b ++ [cout_list])). simpl. lia.
Qed.

Lemma count_addDepositor_cons (c : core_call) (cs : list core_call) :
  count_addDepositor (c :: cs) = (count_addDepositor [c] + count_addDepositor cs)%nat.
Proof. destruct c; reflexivity. Qed.

(** X10. The registry only grows, and only through [addDepositor]: after
    any sequence of core calls the number of depositors is the number
    before plus the number of [addDepositor] calls; no call removes one. *)
Theorem registry_size (cs : list core_call) (b : Bank) :
  List.length (depositors (run cs b))
  = (List.length (depositors b) + count_addDepositor cs)%nat.
Proof.
  revert b. induction cs as [|c cs IH]; intros b; [simpl; lia|].
  change (run (c :: cs) b) with (run cs (exec c b)).
  rewrite IH, exec_length, (count_addDepositor_cons c cs). lia.
Qed.

Lemma first_match_stable (id : string) (ds ds' extra : list Depositor) (i : nat) :
  Forall2 (fun d d' => getID d' = getID d) ds ds' ->
  first_match id ds = Some i -> first_match id (ds' ++ extra) = Some i.
Proof.
  intros H. revert i. induction H as [|d d' ds ds' Hd _ IH]; intros i; simpl;
    [discriminate|].
  rewrite Hd. destruct (getID d =? id)%string; [trivial|].
  destruct (first_match id ds) as [j|]; [|discriminate].
  intros [= <-]. now rewrite (IH j eq_refl).
Qed.

Lemma exec_first_match (c : core_call) (b : Bank) (id : string) (i : nat) :
  first_match id (depositors b) = Some i ->
  first_match id (depositors (exec c b)) = Some i.
Proof.
  destruct (exec_shape c b) as (ds' & extra & -> & Hstep & _).
  apply first_match_stable.
  eapply Forall2_impl; [|exact Hstep]. intros d d' [->|(x & _ & ->)]; [reflexivity|].
  apply deposit_same_account.
Qed.

(** X11. An identifier keeps resolving to the same place: once the first
    depositor with identifier [id] is at index [i], it is still the first
    one, at index [i], after any sequence of core calls. *)
Theorem lookup_stable (cs : list core_call) (b : Bank) (id : string) (i : nat) :
  first_match id (depositors b) = Some i ->
  first_match id (depositors (run cs b)) = Some i.
Proof.
  revert b. induction cs as [|c cs IH]; intros b H; [exact H|].
  change (run (c :: cs) b) with (run cs (exec c b)).
  apply IH. now apply exec_first_match.
Qed.

Lemma lookup_stable_witness :
  let b := run [call_addDepositor 100001 "Ann" NormalDeposit;
                call_addDepositor 100002 "Bob" FixedDeposit] Bank_new in
  first_match "PZ100002"
    (depositors (run [call_depositToAccount "PZ100002" 200;
                      call_addDepositor 100002 "Bob" NormalDeposit;
                      call_deposit 0 5] b)) = Some 1%nat.
Proof.
  intros b. apply lookup_stable. reflexivity.
Defined.

Lemma calculateTotalDeposits_loop_nonneg (ds : list Depositor) (total t : float) :
  Forall (fun d => (amount d <? 0) = false) ds ->
  (total <? 0) = false ->
  calculateTotalDeposits_loop ds total = Ok t -> (t <? 0) = false.
Proof.
  intros Hds. revert total. induction Hds as [|d ds Hd _ IH]; intros total Ht; simpl.
  - now intros [= <-].
  - destruct (getDepositAmount d) as [x|e] eqn:E; [|discriminate].
    apply IH. apply add_nonneg; [exact Ht|].
    exact (calculateDeposit_nonneg _ _ _ Hd E).
Qed.

(** X12. In a bank built by core calls from the empty bank nothing is
    below zero: no raw balance, no reported balance, and not the total. *)
Theorem nothing_negative (cs : list core_call) :
  (forall d, In d (depositors (run cs Bank_new)) ->
     (amount d <? 0) = false /\
     forall x, getDepositAmount d = Ok x -> (x <? 0) = false) /\
  (forall t, calculateTotalDeposits (run cs Bank_new) = Ok t -> (t <? 0) = false).
Proof.
  destruct (run_not_decreased cs Bank_new (Forall_nil _)) as [Hinv _].
  split.
  - intros d Hd. rewrite Forall_forall in Hinv. specialize (Hinv d Hd).
    split; [exact Hinv|]. intros x. now apply calculateDeposit_nonneg.
  - intros t. now apply calculateTotalDeposits_loop_nonneg.
Qed.

Lemma nothing_negative_witness :
  let cs := [call_addDepositor 100001 "Ann" NormalDeposit;
             call_addDepositor 100002 "Bob" FixedDeposit;
             call_depositToAccount "PZ100002" 200;
             call_depositToAccount "PZ100001" (-3)] in
  (calculateTotalDeposits (run cs Bank_new) = Ok 400) /\ (400 <? 0) = false.
Proof.
  intros cs. split; [reflexivity|].
  apply (proj2 (nothing_negative cs) 400). reflexivity.
Defined.

Lemma SFltb_leb_trans (x y z : spec_float) :
  SFltb x y = true -> SFleb y z = true -> SFltb x z = true.
Proof.
  unfold SFltb, SFleb.
  destruct x as [sx|sx| |sx mx ex], y as [sy|sy| |sy my ey], z as [sz|sz| |sz mz ez];
    simpl; try discriminate; try reflexivity;
    repeat match goal with s : bool |- _ => destruct s end;
    simpl; try discriminate; try reflexivity;
    fold (Pos.compare mx my); fold (Pos.compare my mz); fold (Pos.compare mx mz);
    destruct (Z.compare_spec ex ey); destruct (Z.compare_spec ey ez);
    destruct (Z.compare_spec ex ez); try discriminate; try reflexivity; try lia;
    destruct (Pos.compare_spec mx my); destruct (Pos.compare_spec my mz);
    destruct (Pos.compare_spec mx mz); simpl; try discriminate; try reflexivity; try lia.
Qed.

Lemma ltb_leb_trans (x y z : float) :
  (x <? y) = true -> (y <=? z) = true -> (x <? z) = true.
Proof. rewrite !ltb_spec, leb_spec. apply SFltb_leb_trans. Qed.

Lemma ltb_asym (x y : float) : (x <? y) = true -> (y <? x) = false.
Proof.
  rewrite !ltb_spec. unfold SFltb.
  rewrite (SFcompare_antisym (Prim2SF x) (Prim2SF y)).
  destruct (SFcompare (Prim2SF x) (Prim2SF y)) as [[ | | ]|]; simpl; congruence.
Qed.

(** Adding to a raw balance of 0 gives the number added, unless that is
    the negative zero. *)
Lemma zero_add (x : float) : Prim2SF x <> S754_zero true -> 0 + x = x.
Proof.
  intros H. apply Prim2SF_inj. rewrite add_spec.
  change (Prim2SF 0) with (S754_zero false). unfold SF64add.
  destruct (Prim2SF x) as [[]|s| |s m e]; try reflexivity. congruence.
Qed.

Lemma binary_round_aux_not_neg_zero (m e : Z) (l : location) :
  binary_round_aux prec emax false m e l <> S754_zero true.
Proof.
  unfold binary_round_aux.
  destruct (shr_fexp prec emax m e l) as [r1 e1].
  destruct (shr_fexp prec emax _ e1 loc_Exact) as [r2 e2].
  destruct (shr_m r2); try discriminate.
  destruct (e2 <=? emax - prec)%Z; discriminate.
Qed.

Lemma credited_not_neg_zero (s : IDeposit) (a c : float) :
  (0 <? a) = true -> calculateDeposit s a = Ok c -> Prim2SF c <> S754_zero true.
Proof.
  intros Ha. destruct s; simpl;
    unfold FixedDeposit_calculateDeposit, NormalDeposit_calculateDeposit.
  - destruct (1000000 <? a); [discriminate|]. intros [= <-].
    rewrite ltb_spec in Ha. rewrite add_spec. unfold SF64add.
    change (Prim2SF 0) with (S754_zero false) in Ha.
    remember (Prim2SF 100) as h eqn:Eh. vm_compute in Eh. subst h.
    destruct (Prim2SF a) as [sa|[]| |[] ma ea]; simpl in Ha; try discriminate Ha.
    + discriminate.
    + match goal with |- SFadd _ _ (S754_finite false ?m1 ?e1) (S754_finite false ?m2 ?e2) <> _ =>
        destruct (SFadd_finite_pos prec emax m1 e1 m2 e2) as (mz & e' & -> & _) end.
      apply binary_round_aux_not_neg_zero.
  - intros [= <-]. rewrite ltb_spec in Ha.
    change (Prim2SF 0) with (S754_zero false) in Ha.
    destruct (Prim2SF a) as [[]|[]| |[] m e]; simpl in Ha; try discriminate Ha;
      discriminate.
Qed.

(** ** A Fixed depositor above the limit *)

(** X13. A bank whose total throws stays that way: when
    [calculateTotalDeposits] throws on a bank built by core calls, it
    throws after every further sequence of core calls, and so does
    [listDepositors], as long as no call passes a NaN.  The raw balance
    that is above 1,000,000 can only grow, and nothing lowers it. *)
Theorem total_stays_broken (cs1 cs2 : list core_call) :
  no_nan (cs1 ++ cs2) ->
  (exists e, calculateTotalDeposits (run cs1 Bank_new) = Throw e) ->
  calculateTotalDeposits (run cs2 (run cs1 Bank_new))
  = Throw (InvalidInputException FixedDeposit_message) /\
  fst (listDepositors (run cs2 (run cs1 Bank_new)))
  = Throw (InvalidInputException FixedDeposit_message).
Proof.
  intros Hnan [e He].
  assert (Hgoal : calculateTotalDeposits (run cs2 (run cs1 Bank_new))
                  = Throw (InvalidInputException FixedDeposit_message)).
  { unfold calculateTotalDeposits in He.
    destruct (calculateTotalDeposits_loop_cases (depositors (run cs1 Bank_new)) 0)
      as [(t & Ht & _)|[_ (d & Hin & Hs & Hlt)]]; [congruence|].
    destruct (In_nth_error _ _ Hin) as [i Hi].
    destruct (run_not_decreased cs1 Bank_new (Forall_nil _)) as [Hinv _].
    destruct (run_not_decreased cs2 (run cs1 Bank_new) Hinv) as [_ Hext].
    destruct (extends_nth _ _ _ _ Hext Hi) as (d' & Hi' & (_ & _ & Hs') & Hnd).
    assert (Hle : Forall (fun x => (0 <=? amount x) = true)
                    (depositors (run cs2 (run cs1 Bank_new)))).
    { rewrite <- run_app. apply run_le; [exact Hnan|constructor]. }
    rewrite Forall_forall in Hle. pose proof (nth_error_In _ _ Hi') as Hin'.
    specialize (Hle d' Hin'). apply leb_not_nan in Hle. destruct Hle as [_ Hle].
    destruct Hnd as [Hn|Hn]; [congruence|].
    assert (Hover : over_limit d').
    { split; [congruence|]. exact (ltb_leb_trans _ _ _ Hlt Hn). }
    unfold calculateTotalDeposits.
    destruct (calculateTotalDeposits_loop_cases
                (depositors (run cs2 (run cs1 Bank_new))) 0)
      as [(t & _ & Hno)|[Ht _]]; [|exact Ht].
    exfalso. exact (Hno d' Hin' Hover). }
  split; [exact Hgoal|]. now apply listDepositors_fst_Throw.
Qed.

(** Two deposits that the Fixed strategy accepts, 600000 each, bring the
    raw balance above the limit; after that the total throws for good. *)
Lemma total_stays_broken_witness :
  let cs1 := [call_addDepositor 100002 "Bob" FixedDeposit;
              call_depositToAccount "PZ100002" 600000;
              call_depositToAccount "PZ100002" 600000] in
  let cs2 := [call_addDepositor 100001 "Ann" NormalDeposit;
              call_depositToAccount "PZ100002" 5; call_listDepositors] in
  calculateTotalDeposits (run cs1 Bank_new)
  = Throw (InvalidInputException FixedDeposit_message) /\
  calculateTotalDeposits (run cs2 (run cs1 Bank_new))
  = Throw (InvalidInputException FixedDeposit_message).
Proof.
  intros cs1 cs2. split; [reflexivity|].
  apply (total_stays_broken cs1 cs2).
  - intros c a Hin Hc.
    repeat (destruct Hin as [<-|Hin];
            [simpl in Hc; first [discriminate Hc|injection Hc as <-; reflexivity]|]).
    destruct Hin.
  - eexists. reflexivity.
Defined.

(** X14. The first deposit on a new account: a depositor is added under an
    identifier that no earlier depositor has, and an amount above zero
    that its strategy credits as [credited] is deposited to it.  The call
    returns true and the raw balance is then exactly [credited]: the
    amount itself with the Normal strategy, the amount plus 100 with the
    Fixed one. *)
Theorem first_deposit_credited (b : Bank) (n : Z) (nm : string) (s : IDeposit)
    (a credited : float) :
  (forall d, In d (depositors b) -> getID d <> generateRandomID n) ->
  (0 <? a) = true ->
  calculateDeposit s a = Ok credited ->
  depositToAccount (generateRandomID n) a (snd (addDepositor n nm s b))
  = (Ok true,
     {| depositors := depositors b
                      ++ [Depositor_new (generateRandomID n) nm credited s];
        console := console b ++ [cout_added (generateRandomID n);
                                 cout_deposit a (generateRandomID n)] |}) /\
  credited = match s with FixedDeposit => a + 100 | NormalDeposit => a end.
Proof.
  intros Hfresh Ha Hc. apply first_match_None in Hfresh.
  rewrite (depositToAccount_at (snd (addDepositor n nm s b)) (generateRandomID n) a
             (depositors b) (Depositor_new (generateRandomID n) nm 0 s) []
             eq_refl Hfresh eq_refl).
  rewrite (ltb_asym _ _ Ha). cbn [depositStrategy Depositor_new]. rewrite Hc.
  unfold add_amount. cbn [name amount depositStrategy depositorID Depositor_new].
  rewrite (zero_add credited (credited_not_neg_zero s a credited Ha Hc)).
  cbn [snd addDepositor console]. rewrite <- app_assoc. split; [reflexivity|].
  destruct s; simpl in Hc;
    unfold FixedDeposit_calculateDeposit, NormalDeposit_calculateDeposit in Hc.
  - destruct (1000000 <? a); [discriminate|]. now injection Hc.
  - now injection Hc.
Qed.

Lemma first_deposit_credited_witness :
  depositToAccount (generateRandomID 100001) 500
    (snd (addDepositor 100001 "Alice" NormalDeposit Bank_new))
  = (Ok true,
     {| depositors := [Depositor_new "PZ100001" "Alice" 500 NormalDeposit];
        console := [cout_added "PZ100001"; cout_deposit 500 "PZ100001"] |}) /\
  500 = 500.
Proof.
  refine (first_deposit_credited Bank_new 100001 "Alice" NormalDeposit 500 500
            _ eq_refl eq_refl).
  intros d [].
Defined.
